(** * Collatz Mapora Engine: residue-class transition rule and stability ratio

    A shallow embedding of the core of [mapora_engine.py]: the class
    [MaporaStack] with its method [get_next_state], and the function
    [get_stability_ratio] with its budgeted breadth-first [while] loop.

    Python integers are unbounded, so they are [Z]; [%] and [//] with the
    positive divisor 2 are [Z.modulo] and [Z.div] (both round towards minus
    infinity, as Python does).  Labels are strings, the deque is a list whose
    head is the left end.  A float is the rational number it denotes, and
    [int / int] rounds the exact quotient to the nearest double. *)

From Stdlib Require Import ZArith List String QArith Qpower Bool Lia.
From Stdlib Require Import Floats.SpecFloat.
Import ListNotations.

Local Open Scope Z_scope.

(** ** The residue class [modulus * k + residue] *)

Module MaporaStack.

(** The four attributes that [__init__] stores. *)
Record t : Type := new {
  m : Z;
  r : Z;
  id : string;
  layer : Z
}.

(** [get_next_state]: [Some] is the new [MaporaStack] of a deterministic
    step (merge), [None] is Python's [None] of an ambiguous one (split). *)
Definition get_next_state (self : t) : option t :=
  if r self mod 2 =? 0 then
    if m self mod 2 =? 0 then
      Some (new (m self / 2) (r self / 2) (id self ++ "D") (layer self + 1))
    else
      None
  else
    Some (new (3 * m self) (3 * r self + 1) (id self ++ "M") (layer self + 1)).

End MaporaStack.

Import MaporaStack (get_next_state).

(** ** The traversal of [get_stability_ratio] *)

(** The local variables of [get_stability_ratio] that the loop updates. *)
Record loop_state : Type := mkLoop {
  queue : list MaporaStack.t;
  straight_paths : Z;
  splits : Z;
  nodes : Z
}.

(** The two stacks appended on a bifurcation, in the order of the two
    [queue.append] calls. *)
Definition split_children (curr : MaporaStack.t) : list MaporaStack.t :=
  let new_m := MaporaStack.m curr * 2 in
  [ MaporaStack.new new_m (MaporaStack.r curr)
      (MaporaStack.id curr ++ "A") (MaporaStack.layer curr + 1);
    MaporaStack.new new_m (MaporaStack.r curr + MaporaStack.m curr)
      (MaporaStack.id curr ++ "B") (MaporaStack.layer curr + 1) ].

(** The test of the termination check, [curr.r == 1 and curr.m % 2 == 0]. *)
Definition is_terminal (curr : MaporaStack.t) : bool :=
  (MaporaStack.r curr =? 1) && (MaporaStack.m curr mod 2 =? 0).

(** One pass through the body of the [while] loop, after
    [curr = queue.popleft()] left [rest] in the deque.  A [MaporaStack]
    object is always truthy, so [if nxt:] tests [nxt] against [None]. *)
Definition loop_body (curr : MaporaStack.t) (rest : list MaporaStack.t)
    (st : loop_state) : loop_state :=
  if is_terminal curr then
    mkLoop rest (straight_paths st) (splits st) (nodes st + 1)
  else
    match get_next_state curr with
    | Some nxt =>
        mkLoop (rest ++ [nxt]) (straight_paths st + 1) (splits st) (nodes st + 1)
    | None =>
        mkLoop (rest ++ split_children curr)
               (straight_paths st) (splits st + 1) (nodes st + 1)
    end.

(** One iteration of [while queue and nodes < depth_limit]: [None] when the
    guard fails and the loop is left, the state after the body otherwise. *)
Definition step (depth_limit : Z) (st : loop_state) : option loop_state :=
  match queue st with
  | [] => None
  | curr :: rest =>
      if nodes st <? depth_limit then Some (loop_body curr rest st) else None
  end.

(** The [while] loop.  [fuel] bounds the number of iterations; [None] means
    that the fuel ran out before the guard failed. *)
Fixpoint while_loop (fuel : nat) (depth_limit : Z) (st : loop_state)
    : option loop_state :=
  match step depth_limit st with
  | None => Some st
  | Some st' =>
      match fuel with
      | O => None
      | S fuel' => while_loop fuel' depth_limit st'
      end
  end.

(** The state on entry to the loop: the root stack (its [layer] is the
    default 0 of [__init__]) and the three counters at 0. *)
Definition initial_state (modulus residue : Z) : loop_state :=
  mkLoop [MaporaStack.new modulus residue "ROOT" 0] 0 0 0.

(** Python floats are IEEE 754 doubles.  A finite double is modelled by the
    rational number it denotes, written in lowest terms, so that two equal
    floats are equal terms. *)
Definition pyfloat : Type := Q.

(** The literal [50.0]; 50 is a double. *)
Definition float_50 : pyfloat := 50%Q.

(** The integer nearest to [x / y] for [y > 0]; of two equally near
    integers the even one. *)
Definition div_nearest_even (x y : Z) : Z :=
  let q := x / y in
  match 2 * (x mod y) ?= y with
  | Lt => q
  | Eq => if Z.even q then q else q + 1
  | Gt => q + 1
  end.

(** The integer [f] with [2^f <= a / b < 2^(f+1)], for [a, b > 0]: the
    difference of the bit lengths or one less. *)
Definition quotient_exponent (a b : Z) : Z :=
  let d := Z.log2 a - Z.log2 b in
  if b * 2 ^ Z.max 0 d <=? a * 2 ^ Z.max 0 (- d) then d else d - 1.

(** The float [m * 2^e], in lowest terms. *)
Definition double_value (m e : Z) : pyfloat :=
  Qred (Qmake (m * 2 ^ Z.max 0 e) (Z.to_pos (2 ^ Z.max 0 (- e)))).

(** [a / b] on two integers: the double nearest to the exact quotient, ties
    to the even mantissa.  The quotient is scaled by the power of two that
    leaves 53 bits before the point (by 2^1074 at most, the subnormal
    range) and rounded to an integer.  Two cases raise in Python and are
    out of the reach of [get_stability_ratio]: [b = 0] (ZeroDivisionError;
    the function tests [splits == 0] before it divides) and a quotient that
    rounds to 2^1024 or more (OverflowError; a counter would have to exceed
    2^1023), where the definition goes on with an unbounded exponent. *)
Definition true_div (a b : Z) : pyfloat :=
  let negative := xorb (a <? 0) (b <? 0) in
  let a := Z.abs a in
  let b := Z.abs b in
  let e := Z.max (quotient_exponent a b - 52) (-1074) in
  let m := div_nearest_even (a * 2 ^ Z.max 0 (- e)) (b * 2 ^ Z.max 0 e) in
  double_value (if negative then - m else m) e.

(** What it means for [v] to be the double nearest to [a / b], for
    [a >= 0] and [b > 0]: [v] is [m * 2^e] in lowest terms; [e] is the
    exponent of the 53-bit mantissa of the quotient, [a / b < 2^53 * 2^e]
    and [2^52 * 2^e <= a / b] unless [e] is the least exponent -1074;
    [m] is within one half of [a / (b * 2^e)], and even when it is exactly
    one half away.  The inequalities are cleared of denominators. *)
Definition rounded_quotient (a b : Z) (v : pyfloat) : Prop :=
  exists m e : Z,
    (v == inject_Z m * 2 ^ e)%Q
    /\ Qred v = v
    /\ -1074 <= e
    /\ a * 2 ^ Z.max 0 (- e) < 2 ^ 53 * (b * 2 ^ Z.max 0 e)
    /\ (e = -1074 \/ 2 ^ 52 * (b * 2 ^ Z.max 0 e) <= a * 2 ^ Z.max 0 (- e))
    /\ 2 * Z.abs (a * 2 ^ Z.max 0 (- e) - m * (b * 2 ^ Z.max 0 e))
         <= b * 2 ^ Z.max 0 e
    /\ (2 * Z.abs (a * 2 ^ Z.max 0 (- e) - m * (b * 2 ^ Z.max 0 e))
          = b * 2 ^ Z.max 0 e -> Z.even m = true).

(** The division of the Standard Library's IEEE 754 model at binary64
    (precision 53, exponents below 1024), on two positive integers, as the
    rational it returns; [None] for an infinity or a NaN. *)
Definition SFdiv_binary64 (a b : positive) : option pyfloat :=
  match SFdiv 53 1024 (S754_finite false a 0) (S754_finite false b 0) with
  | S754_zero _ => Some 0%Q
  | S754_finite s m e =>
      Some (double_value (if s then Z.neg m else Z.pos m) e)
  | _ => None
  end.

(** The two [return] statements after the loop. *)
Definition ratio_of (st : loop_state) : pyfloat :=
  if splits st =? 0 then float_50
  else true_div (straight_paths st) (splits st).

(** The whole traversal, run with as much fuel as the budget allows
    iterations. *)
Definition traverse (modulus residue depth_limit : Z) : option loop_state :=
  while_loop (Z.to_nat depth_limit) depth_limit (initial_state modulus residue).

Definition get_stability_ratio (modulus residue depth_limit : Z)
    : option pyfloat :=
  option_map ratio_of (traverse modulus residue depth_limit).

(** Exactly [n] iterations in a row; [None] if the guard fails earlier. *)
Fixpoint run_steps (depth_limit : Z) (n : nat) (st : loop_state)
    : option loop_state :=
  match n with
  | O => Some st
  | S k =>
      match step depth_limit st with
      | Some st' => run_steps depth_limit k st'
      | None => None
      end
  end.

(** The stacks that the iteration dequeuing [curr] appends to the deque. *)
Definition enqueued (curr : MaporaStack.t) : list MaporaStack.t :=
  if is_terminal curr then []
  else match get_next_state curr with
       | Some nxt => [nxt]
       | None => split_children curr
       end.

(** States of the loop that a run from [st0] passes through. *)
Inductive reaches (depth_limit : Z) (st0 : loop_state) : loop_state -> Prop :=
| reaches_start : reaches depth_limit st0 st0
| reaches_step : forall st st',
    reaches depth_limit st0 st ->
    step depth_limit st = Some st' ->
    reaches depth_limit st0 st'.

(** The deque holds stacks of one layer followed by stacks of the next. *)
Definition two_layers (q : list MaporaStack.t) : Prop :=
  exists l front back,
    q = front ++ back
    /\ Forall (fun c => MaporaStack.layer c = l) front
    /\ Forall (fun c => MaporaStack.layer c = l + 1) back.

(** The input domain of the rule, [modulus >= 1] and [residue >= 0]. *)
Definition in_domain (c : MaporaStack.t) : Prop :=
  1 <= MaporaStack.m c /\ 0 <= MaporaStack.r c.

(** ** The Collatz map on integers

    The map that the module's comments refer to ("divide the whole stack",
    "apply 3n+1"), on one integer instead of a residue class. *)
Definition collatz (n : Z) : Z :=
  if n mod 2 =? 0 then n / 2 else 3 * n + 1.

(** ** The loop of [generate_tree_image]

    The [DiGraph] is represented by its [add_edge] calls, oldest first (the
    root node ["R"] is added before the loop); the layout and the drawing
    that follow the loop are not modelled. *)

Record edge : Type := mkEdge {
  src : string;
  dst : string;
  color : string;
  weight : Z
}.

Record tree_state : Type := mkTree {
  tree_queue : list MaporaStack.t;
  tree_edges : list edge
}.

(** The body of [while queue:], after [curr = queue.popleft()]. *)
Definition tree_body (curr : MaporaStack.t) (rest : list MaporaStack.t)
    (G : list edge) : tree_state :=
  if MaporaStack.layer curr >=? 14 then mkTree rest G
  else
    match get_next_state curr with
    | Some nxt =>
        mkTree (rest ++ [nxt])
          (G ++ [mkEdge (MaporaStack.id curr) (MaporaStack.id nxt) "#2ecc71" 2])
    | None =>
        let nm := MaporaStack.m curr * 2 in
        let t1 := MaporaStack.new nm (MaporaStack.r curr)
                    (MaporaStack.id curr ++ "A") (MaporaStack.layer curr + 1) in
        let t2 := MaporaStack.new nm (MaporaStack.r curr + MaporaStack.m curr)
                    (MaporaStack.id curr ++ "B") (MaporaStack.layer curr + 1) in
        mkTree (rest ++ [t1; t2])
          (G ++ [mkEdge (MaporaStack.id curr) (MaporaStack.id t1) "#e74c3c" 1;
                 mkEdge (MaporaStack.id curr) (MaporaStack.id t2) "#e74c3c" 1])
    end.

(** One iteration of [while queue:]; [None] when the deque is empty. *)
Definition tree_step (st : tree_state) : option tree_state :=
  match tree_queue st with
  | [] => None
  | curr :: rest => Some (tree_body curr rest (tree_edges st))
  end.

(** The loop, with [fuel] bounding the iterations ([None]: fuel ran out). *)
Fixpoint tree_loop (fuel : nat) (st : tree_state) : option tree_state :=
  match tree_step st with
  | None => Some st
  | Some st' =>
      match fuel with
      | O => None
      | S fuel' => tree_loop fuel' st'
      end
  end.

(** The state on entry: the root stack ["R"] at layer 0, no edge yet. *)
Definition tree_initial (residue mod_ : Z) : tree_state :=
  mkTree [MaporaStack.new mod_ residue "R" 0] [].

(** An upper bound on the iterations spent on a stack of layer [l] and on
    all that derives from it: a full binary tree down to layer 14. *)
Definition subtree_bound (l : Z) : nat :=
  (2 ^ S (Z.to_nat (14 - l)) - 1)%nat.

Definition frontier_bound (q : list MaporaStack.t) : nat :=
  list_sum (map (fun c => subtree_bound (MaporaStack.layer c)) q).

(** The graph that [generate_tree_image] draws, as the state on leaving the
    loop; the fuel is the bound for the root. *)
Definition generate_tree_graph (residue mod_ : Z) : option tree_state :=
  tree_loop (subtree_bound 0) (tree_initial residue mod_).

(** What an [add_edge] call of the loop looks like: a green edge of weight
    2 to the label extended by D or M, or a red edge of weight 1 to the
    label extended by A or B. *)
Definition merge_edge (e : edge) : Prop :=
  (dst e = (src e ++ "D")%string \/ dst e = (src e ++ "M")%string)
  /\ color e = "#2ecc71"%string /\ weight e = 2.

Definition split_edge (e : edge) : Prop :=
  (dst e = (src e ++ "A")%string \/ dst e = (src e ++ "B")%string)
  /\ color e = "#e74c3c"%string /\ weight e = 1.

(** The shape of the labels that one iteration creates. *)
Definition extends_label (curr : MaporaStack.t) (k : MaporaStack.t) : Prop :=
  exists x, String.length x = 1%nat
            /\ MaporaStack.id k = (MaporaStack.id curr ++ x)%string.

(** The bookkeeping behind the uniqueness of node labels: the deque is a
    block of labels of one length followed by a block one letter longer,
    no label occurs twice in it, no label of the second block extends a
    label of the first, no label is the target of two edges, and the
    targets of the longest edges are still in the second block. *)
Definition tree_labels_inv (st : tree_state) : Prop :=
  exists n front back,
    tree_queue st = front ++ back
    /\ Forall (fun c => String.length (MaporaStack.id c) = n) front
    /\ Forall (fun c => String.length (MaporaStack.id c) = S n) back
    /\ NoDup (map MaporaStack.id (tree_queue st))
    /\ (forall b f x, In b back -> In f front ->
          MaporaStack.id b <> (MaporaStack.id f ++ x)%string)
    /\ NoDup (map dst (tree_edges st))
    /\ (forall e, In e (tree_edges st) ->
          (String.length (dst e) <= S n)%nat
          /\ (String.length (dst e) = S n ->
              In (dst e) (map MaporaStack.id back))).

(** ** The experiment drivers

    The drivers print a table; the rows below hold the values a row is
    printed from, before the float arithmetic on the ratios and the
    formatting.  The random module is a parameter. *)

(** [int.bit_length]. *)
Definition bit_length (n : Z) : Z :=
  if n =? 0 then 0 else Z.log2 (Z.abs n) + 1.

Record fib_row : Type := mkFibRow {
  fib_index : Z;
  fib_val : Z;
  net_size : Z;
  fib_ratio : option pyfloat;
  rand_val : Z;
  rnd_ratio : option pyfloat
}.

(** The body of the [for] loop of [run_fibonacci_stress_test];
    [randint lo hi] is the draw of [random.randint(lo, hi)] in this
    iteration. *)
Definition fib_iteration (randint : Z -> Z -> Z) (i a b : Z) : fib_row :=
  let fib_val := a + b in
  let net_size := 2 ^ bit_length fib_val in
  let fib_ratio := get_stability_ratio net_size fib_val 400 in
  let rand_val := randint (net_size / 2) (net_size - 1) in
  let rand_val := if rand_val mod 2 =? 0 then rand_val + 1 else rand_val in
  let rnd_ratio := get_stability_ratio net_size rand_val 400 in
  mkFibRow i fib_val net_size fib_ratio rand_val rnd_ratio.

(** The [for] loop with its update [a, b = b, fib_val]; [randint i] is the
    generator as iteration [i] finds it. *)
Fixpoint fib_loop (randint : Z -> Z -> Z -> Z) (indices : list Z) (a b : Z)
    : list fib_row :=
  match indices with
  | [] => []
  | i :: indices' =>
      let row := fib_iteration (randint i) i a b in
      row :: fib_loop randint indices' b (fib_val row)
  end.

(** [range(3, 26)] from [a, b = 1, 1]. *)
Definition run_fibonacci_stress_test (randint : Z -> Z -> Z -> Z)
    : list fib_row :=
  fib_loop randint (map Z.of_nat (seq 3 23)) 1 1.

Record horizon_row : Type := mkHorizonRow {
  horizon_bits : Z;
  horizon_modulus : Z;
  horizon_residue : Z;
  horizon_ratio : option pyfloat;
  horizon_context : string
}.

(** The body of the [for] loop of [run_horizon_scan]; [getrandbits k] is
    the draw of [random.getrandbits(k)]. *)
Definition horizon_iteration (getrandbits : Z -> Z) (bits : Z) : horizon_row :=
  let modulus := Z.shiftl 1 bits in
  let part_a := Z.shiftl 1 bits - 1 in
  let part_b := getrandbits bits in
  let residue := Z.lxor part_a part_b in
  let residue := if residue mod 2 =? 0 then residue + 1 else residue in
  let ratio := get_stability_ratio modulus residue 3000 in
  let context :=
    if bits <? 70 then "Supercomputer"%string
    else if bits <? 300 then "Cosmological"%string
    else "Theoretical"%string in
  mkHorizonRow bits modulus residue ratio context.

Definition scales : list Z := [10; 50; 100; 300; 500; 750; 1000].

Definition run_horizon_scan (getrandbits : Z -> Z) : list horizon_row :=
  map (horizon_iteration getrandbits) scales.

(** ** The transition rule *)

Lemma mod2_even (z : Z) : (z mod 2 =? 0) = Z.even z.
Proof.
  rewrite Zmod_even. destruct (Z.even z); reflexivity.
Qed.

Lemma even_false_odd (z : Z) : Z.odd z = true -> Z.even z = false.
Proof.
  rewrite <- Z.negb_even. destruct (Z.even z); simpl; congruence.
Qed.

(** C1: for a state with modulus >= 1 and residue >= 0, [get_next_state]
    halves modulus and residue when both are even, is ambiguous ([None])
    when the residue is even and the modulus odd, and maps an odd residue to
    (3 * modulus, 3 * residue + 1); the depth grows by one in both
    deterministic cases, and the state (1, 1) goes to (3, 4). *)
Theorem get_next_state_three_cases (s : MaporaStack.t) :
  1 <= MaporaStack.m s ->
  0 <= MaporaStack.r s ->
  (Z.even (MaporaStack.r s) = true -> Z.even (MaporaStack.m s) = true ->
     get_next_state s =
       Some (MaporaStack.new (MaporaStack.m s / 2) (MaporaStack.r s / 2)
               (MaporaStack.id s ++ "D") (MaporaStack.layer s + 1)))
  /\ (Z.even (MaporaStack.r s) = true -> Z.odd (MaporaStack.m s) = true ->
     get_next_state s = None)
  /\ (Z.odd (MaporaStack.r s) = true ->
     get_next_state s =
       Some (MaporaStack.new (3 * MaporaStack.m s) (3 * MaporaStack.r s + 1)
               (MaporaStack.id s ++ "M") (MaporaStack.layer s + 1)))
  /\ (forall label depth,
     get_next_state (MaporaStack.new 1 1 label depth) =
       Some (MaporaStack.new 3 4 (label ++ "M") (depth + 1))).
Proof.
  intros _ _. unfold get_next_state. rewrite !mod2_even.
  repeat split.
  - intros Hr Hm. now rewrite Hr, Hm.
  - intros Hr Hm. now rewrite Hr, (even_false_odd _ Hm).
  - intros Hr. now rewrite (even_false_odd _ Hr).
Qed.

Lemma get_next_state_three_cases_witness :
  get_next_state (MaporaStack.new 32 16 "ROOT" 0) =
    Some (MaporaStack.new 16 8 "ROOTD" 1)
  /\ get_next_state (MaporaStack.new 3 4 "ROOT" 0) = None
  /\ get_next_state (MaporaStack.new 32 987 "R" 0) =
    Some (MaporaStack.new 96 2962 "RM" 1).
Proof.
  split; [| split].
  - apply (get_next_state_three_cases (MaporaStack.new 32 16 "ROOT" 0));
      simpl; first [lia | reflexivity].
  - apply (get_next_state_three_cases (MaporaStack.new 3 4 "ROOT" 0));
      simpl; first [lia | reflexivity].
  - apply (get_next_state_three_cases (MaporaStack.new 32 987 "R" 0));
      simpl; first [lia | reflexivity].
Defined.

(** ** One iteration of the loop *)

Section Iteration.

Variable depth_limit : Z.

(** Every branch of the body ends with [nodes += 1]; the other two
    counters either stay or grow by one. *)
Lemma loop_body_counters curr rest st :
  let st' := loop_body curr rest st in
  nodes st' = nodes st + 1
  /\ straight_paths st <= straight_paths st' <= straight_paths st + 1
  /\ splits st <= splits st' <= splits st + 1.
Proof.
  unfold loop_body.
  destruct (is_terminal curr); [| destruct (get_next_state curr)];
    simpl; lia.
Qed.

(** A step is taken exactly when the deque is non-empty and the budget
    is not used up. *)
Lemma step_some_inv st st' :
  step depth_limit st = Some st' ->
  exists curr rest,
    queue st = curr :: rest
    /\ nodes st < depth_limit
    /\ st' = loop_body curr rest st.
Proof.
  unfold step. destruct (queue st) as [| curr rest]; [discriminate |].
  destruct (nodes st <? depth_limit) eqn:Hlt; [| discriminate].
  intros [= <-]. exists curr, rest. repeat split. now apply Z.ltb_lt.
Qed.

Lemma step_guarded st curr rest :
  queue st = curr :: rest ->
  nodes st < depth_limit ->
  step depth_limit st = Some (loop_body curr rest st).
Proof.
  intros Hq Hlt. unfold step. rewrite Hq.
  apply Z.ltb_lt in Hlt. now rewrite Hlt.
Qed.

Lemma step_counters st st' :
  step depth_limit st = Some st' ->
  nodes st < depth_limit
  /\ nodes st' = nodes st + 1
  /\ straight_paths st <= straight_paths st' <= straight_paths st + 1
  /\ splits st <= splits st' <= splits st + 1.
Proof.
  intros Hstep. apply step_some_inv in Hstep.
  destruct Hstep as (curr & rest & _ & Hlt & ->).
  split; [exact Hlt | apply loop_body_counters].
Qed.

Lemma step_none_budget st :
  depth_limit <= nodes st -> step depth_limit st = None.
Proof.
  intros Hge. unfold step. destruct (queue st); [reflexivity |].
  apply Z.ltb_ge in Hge. now rewrite Hge.
Qed.

(** The loop leaves after at most [depth_limit - nodes] iterations: with
    that much fuel it returns the state in which the guard first fails,
    and [nodes] has counted the iterations. *)
Lemma while_loop_exits :
  forall fuel st,
    (Z.to_nat (depth_limit - nodes st) <= fuel)%nat ->
    exists n fin,
      (n <= Z.to_nat (depth_limit - nodes st))%nat
      /\ run_steps depth_limit n st = Some fin
      /\ step depth_limit fin = None
      /\ while_loop fuel depth_limit st = Some fin
      /\ nodes fin = nodes st + Z.of_nat n.
Proof.
  induction fuel as [| fuel IH]; intros st Hfuel.
  - exists O, st. simpl.
    assert (Hnone : step depth_limit st = None)
      by (apply step_none_budget; lia).
    rewrite Hnone. repeat split; first [reflexivity | lia].
  - destruct (step depth_limit st) as [st' |] eqn:Hstep.
    + destruct (step_counters _ _ Hstep) as (Hlt & Hn & _).
      destruct (IH st') as (n & fin & Hle & Hrun & Hout & Hloop & Hcount);
        [lia |].
      exists (S n), fin. simpl. rewrite Hstep.
      split; [lia |]. split; [exact Hrun |]. split; [exact Hout |].
      split; [exact Hloop | lia].
    + exists O, st. simpl. rewrite Hstep.
      repeat split; first [reflexivity | lia].
Qed.

(** More fuel than needed does not change the outcome. *)
Lemma while_loop_more_fuel :
  forall fuel fuel' st fin,
    while_loop fuel depth_limit st = Some fin ->
    (fuel <= fuel')%nat ->
    while_loop fuel' depth_limit st = Some fin.
Proof.
  induction fuel as [| fuel IH]; intros fuel' st fin; simpl;
    destruct (step depth_limit st) as [st' |] eqn:Hstep;
    try discriminate; intros Hloop Hle.
  - destruct fuel'; simpl; now rewrite Hstep.
  - destruct fuel' as [| fuel']; [lia |].
    simpl. rewrite Hstep. apply (IH fuel' st' fin Hloop). lia.
  - destruct fuel'; simpl; now rewrite Hstep.
Qed.

(** Counters along a run: they never decrease. *)
Lemma reaches_counters st0 st :
  reaches depth_limit st0 st ->
  nodes st0 <= nodes st
  /\ straight_paths st0 <= straight_paths st
  /\ splits st0 <= splits st.
Proof.
  induction 1 as [| st st' _ IH Hstep]; [lia |].
  apply step_counters in Hstep. lia.
Qed.

End Iteration.

Lemma loop_body_queue curr rest st :
  queue (loop_body curr rest st) = rest ++ enqueued curr.
Proof.
  unfold loop_body, enqueued.
  destruct (is_terminal curr); [| destruct (get_next_state curr)]; simpl;
    [now rewrite app_nil_r | reflexivity | reflexivity].
Qed.

Lemma traverse_exits modulus residue depth_limit :
  exists n fin,
    (n <= Z.to_nat depth_limit)%nat
    /\ run_steps depth_limit n (initial_state modulus residue) = Some fin
    /\ step depth_limit fin = None
    /\ traverse modulus residue depth_limit = Some fin
    /\ nodes fin = Z.of_nat n.
Proof.
  destruct (while_loop_exits depth_limit (Z.to_nat depth_limit)
              (initial_state modulus residue))
    as (n & fin & Hle & Hrun & Hout & Hloop & Hcount).
  - simpl. now rewrite Z.sub_0_r.
  - simpl in Hle, Hcount. rewrite Z.sub_0_r in Hle.
    exists n, fin. repeat split; assumption.
Qed.

(** The state the loop returns is one the run passes through. *)
Lemma while_loop_reaches depth_limit st0 :
  forall fuel st fin,
    reaches depth_limit st0 st ->
    while_loop fuel depth_limit st = Some fin ->
    reaches depth_limit st0 fin.
Proof.
  induction fuel as [| fuel IH]; intros st fin Hreach; simpl;
    destruct (step depth_limit st) as [st' |] eqn:Hstep;
    try discriminate; try (intros [= <-]; exact Hreach).
  apply IH. now apply reaches_step with st.
Qed.

Lemma traverse_reaches modulus residue depth_limit fin :
  traverse modulus residue depth_limit = Some fin ->
  reaches depth_limit (initial_state modulus residue) fin.
Proof.
  apply while_loop_reaches. apply reaches_start.
Qed.

(** An ambiguous stack has an even residue, so the termination check
    (residue 1) does not catch it. *)
Lemma ambiguous_not_terminal curr :
  get_next_state curr = None -> is_terminal curr = false.
Proof.
  unfold get_next_state, is_terminal.
  destruct (MaporaStack.r curr mod 2 =? 0) eqn:Hr; [| discriminate].
  intros _. destruct (Z.eqb_spec (MaporaStack.r curr) 1) as [H1 |];
    [| reflexivity].
  rewrite H1 in Hr. discriminate.
Qed.

(** ** Rounding the quotient to a double *)

Lemma div_nearest_even_spec (x y : Z) :
  0 < y ->
  2 * Z.abs (x - div_nearest_even x y * y) <= y
  /\ (2 * Z.abs (x - div_nearest_even x y * y) = y ->
      Z.even (div_nearest_even x y) = true).
Proof.
  intros Hy. unfold div_nearest_even.
  pose proof (Z.div_mod x y ltac:(lia)) as Hdiv.
  pose proof (Z.mod_pos_bound x y Hy) as Hmod.
  set (q := x / y) in *. set (r := x mod y) in *.
  destruct (Z.compare_spec (2 * r) y) as [Heq | Hlt | Hgt].
  - destruct (Z.even q) eqn:Hq.
    + split; [lia | intros _; exact Hq].
    + split; [lia |]. intros _. rewrite Z.even_add, Hq. reflexivity.
  - split; [lia | lia].
  - split; [lia | lia].
Qed.

Lemma div_nearest_even_bounds (x y k : Z) :
  0 < y -> 0 <= x -> x <= k * y ->
  0 <= div_nearest_even x y <= k.
Proof.
  intros Hy Hx Hk. unfold div_nearest_even.
  pose proof (Z.div_mod x y ltac:(lia)) as Hdiv.
  pose proof (Z.mod_pos_bound x y Hy) as Hmod.
  pose proof (Z.div_pos x y Hx Hy) as Hq.
  set (q := x / y) in *. set (r := x mod y) in *.
  assert (Hqk : q <= k) by nia.
  assert (Hcase : q < k \/ (q = k /\ r = 0)) by nia.
  destruct (Z.compare_spec (2 * r) y) as [Heq | Hlt | Hgt];
    [destruct (Z.even q) |..]; lia.
Qed.

(** [2^g] is the fraction [2^max(0,g) / 2^max(0,-g)]; what a shift of the
    exponent by [k >= 0] does to numerator and denominator. *)
Lemma pow2_shift (g k : Z) :
  0 <= k ->
  2 ^ Z.max 0 (g + k) * 2 ^ Z.max 0 (- g) =
    2 ^ k * 2 ^ Z.max 0 g * 2 ^ Z.max 0 (- (g + k)).
Proof.
  intros Hk.
  destruct (Z.le_gt_cases 0 g) as [Hg | Hg].
  - replace (Z.max 0 (g + k)) with (k + g) by lia.
    replace (Z.max 0 g) with g by lia.
    replace (Z.max 0 (- g)) with 0 by lia.
    replace (Z.max 0 (- (g + k))) with 0 by lia.
    rewrite Z.pow_add_r by lia. rewrite Z.pow_0_r. ring.
  - destruct (Z.le_gt_cases (g + k) 0) as [Hgk | Hgk].
    + replace (Z.max 0 (g + k)) with 0 by lia.
      replace (Z.max 0 g) with 0 by lia.
      replace (Z.max 0 (- g)) with (k + - (g + k)) by lia.
      replace (Z.max 0 (- (g + k))) with (- (g + k)) by lia.
      rewrite Z.pow_add_r by lia. rewrite Z.pow_0_r. ring.
    + replace (Z.max 0 (g + k)) with (g + k) by lia.
      replace (Z.max 0 g) with 0 by lia.
      replace (Z.max 0 (- g)) with (- g) by lia.
      replace (Z.max 0 (- (g + k))) with 0 by lia.
      rewrite <- Z.pow_add_r by lia. rewrite Z.pow_0_r.
      replace (g + k + - g) with k by lia. ring.
Qed.

Lemma pow2_pos (g : Z) : 0 < 2 ^ Z.max 0 g.
Proof. apply Z.pow_pos_nonneg; lia. Qed.

(** [2^(g+k) <= a/b] gives [2^k * 2^g <= a/b], cleared of denominators. *)
Lemma scaled_le_shift (a b g k : Z) :
  0 <= k ->
  b * 2 ^ Z.max 0 (g + k) <= a * 2 ^ Z.max 0 (- (g + k)) ->
  2 ^ k * (b * 2 ^ Z.max 0 g) <= a * 2 ^ Z.max 0 (- g).
Proof.
  intros Hk Hle.
  pose proof (pow2_shift g k Hk) as Hs.
  pose proof (pow2_pos (- g)) as H1. pose proof (pow2_pos (- (g + k))) as H2.
  apply Z.mul_le_mono_pos_r with (2 ^ Z.max 0 (- (g + k))); [exact H2 |].
  apply (Z.mul_le_mono_nonneg_r _ _ (2 ^ Z.max 0 (- g))) in Hle; [| lia].
  replace (2 ^ k * (b * 2 ^ Z.max 0 g) * 2 ^ Z.max 0 (- (g + k)))
    with (b * (2 ^ k * 2 ^ Z.max 0 g * 2 ^ Z.max 0 (- (g + k)))) by ring.
  rewrite <- Hs. lia.
Qed.

Lemma scaled_lt_shift (a b g k : Z) :
  0 <= k ->
  a * 2 ^ Z.max 0 (- (g + k)) < b * 2 ^ Z.max 0 (g + k) ->
  a * 2 ^ Z.max 0 (- g) < 2 ^ k * (b * 2 ^ Z.max 0 g).
Proof.
  intros Hk Hlt.
  pose proof (pow2_shift g k Hk) as Hs.
  pose proof (pow2_pos (- g)) as H1. pose proof (pow2_pos (- (g + k))) as H2.
  apply Z.mul_lt_mono_pos_r with (2 ^ Z.max 0 (- (g + k))); [exact H2 |].
  apply (Z.mul_lt_mono_pos_r (2 ^ Z.max 0 (- g))) in Hlt; [| lia].
  replace (2 ^ k * (b * 2 ^ Z.max 0 g) * 2 ^ Z.max 0 (- (g + k)))
    with (b * (2 ^ k * 2 ^ Z.max 0 g * 2 ^ Z.max 0 (- (g + k)))) by ring.
  rewrite <- Hs. lia.
Qed.

(** [a/b < 2^h] and [h <= h'] give [a/b < 2^h']. *)
Lemma scaled_lt_mono (a b h h' : Z) :
  0 < b -> 0 <= a -> h <= h' ->
  a * 2 ^ Z.max 0 (- h) < b * 2 ^ Z.max 0 h ->
  a * 2 ^ Z.max 0 (- h') < b * 2 ^ Z.max 0 h'.
Proof.
  intros Hb Ha Hh Hlt.
  replace h' with (h + (h' - h)) by lia.
  pose proof (pow2_shift h (h' - h) ltac:(lia)) as Hs.
  pose proof (pow2_pos (- h)) as H1.
  pose proof (pow2_pos (- (h + (h' - h)))) as H2.
  pose proof (pow2_pos h) as H3.
  assert (H4 : 1 <= 2 ^ (h' - h)) by (apply Z.lt_pred_le, Z.pow_pos_nonneg; lia).
  apply Z.mul_lt_mono_pos_r with (2 ^ Z.max 0 (- h)); [exact H1 |].
  replace (b * 2 ^ Z.max 0 (h + (h' - h)) * 2 ^ Z.max 0 (- h))
    with (b * (2 ^ Z.max 0 (h + (h' - h)) * 2 ^ Z.max 0 (- h))) by ring.
  rewrite Hs.
  apply (Z.mul_lt_mono_pos_r (2 ^ Z.max 0 (- (h + (h' - h))))) in Hlt; [| lia].
  nia.
Qed.

Lemma pow_frac_le (a b u w : Z) :
  0 <= u -> 0 <= w ->
  2 ^ u <= a -> b <= 2 ^ w ->
  b * 2 ^ Z.max 0 (u - w) <= a * 2 ^ Z.max 0 (- (u - w)).
Proof.
  intros Hu Hw Ha Hb.
  assert (H0 : 0 < 2 ^ u) by (apply Z.pow_pos_nonneg; lia).
  destruct (Z.le_gt_cases w u) as [Hle | Hgt].
  - replace (Z.max 0 (u - w)) with (u - w) by lia.
    replace (Z.max 0 (- (u - w))) with 0 by lia.
    rewrite Z.pow_0_r, Z.mul_1_r.
    assert (Hpow : 2 ^ w * 2 ^ (u - w) = 2 ^ u)
      by (rewrite <- Z.pow_add_r by lia; f_equal; lia).
    assert (0 < 2 ^ (u - w)) by (apply Z.pow_pos_nonneg; lia).
    nia.
  - replace (Z.max 0 (u - w)) with 0 by lia.
    replace (Z.max 0 (- (u - w))) with (w - u) by lia.
    rewrite Z.pow_0_r, Z.mul_1_r.
    assert (Hpow : 2 ^ u * 2 ^ (w - u) = 2 ^ w)
      by (rewrite <- Z.pow_add_r by lia; f_equal; lia).
    assert (0 < 2 ^ (w - u)) by (apply Z.pow_pos_nonneg; lia).
    nia.
Qed.

Lemma pow_frac_lt (a b u w : Z) :
  0 <= u -> 0 <= w ->
  a < 2 ^ u -> 2 ^ w <= b ->
  a * 2 ^ Z.max 0 (- (u - w)) < b * 2 ^ Z.max 0 (u - w).
Proof.
  intros Hu Hw Ha Hb.
  assert (H0 : 0 < 2 ^ w) by (apply Z.pow_pos_nonneg; lia).
  destruct (Z.le_gt_cases w u) as [Hle | Hgt].
  - replace (Z.max 0 (u - w)) with (u - w) by lia.
    replace (Z.max 0 (- (u - w))) with 0 by lia.
    rewrite Z.pow_0_r, Z.mul_1_r.
    assert (Hpow : 2 ^ w * 2 ^ (u - w) = 2 ^ u)
      by (rewrite <- Z.pow_add_r by lia; f_equal; lia).
    assert (0 < 2 ^ (u - w)) by (apply Z.pow_pos_nonneg; lia).
    nia.
  - replace (Z.max 0 (u - w)) with 0 by lia.
    replace (Z.max 0 (- (u - w))) with (w - u) by lia.
    rewrite Z.pow_0_r, Z.mul_1_r.
    assert (Hpow : 2 ^ u * 2 ^ (w - u) = 2 ^ w)
      by (rewrite <- Z.pow_add_r by lia; f_equal; lia).
    assert (0 < 2 ^ (w - u)) by (apply Z.pow_pos_nonneg; lia).
    nia.
Qed.

Lemma quotient_exponent_spec (a b : Z) :
  0 < a -> 0 < b ->
  let f := quotient_exponent a b in
  f <= Z.log2 a
  /\ b * 2 ^ Z.max 0 f <= a * 2 ^ Z.max 0 (- f)
  /\ a * 2 ^ Z.max 0 (- (f + 1)) < b * 2 ^ Z.max 0 (f + 1).
Proof.
  intros Ha Hb. unfold quotient_exponent.
  pose proof (Z.log2_spec a Ha) as [Ha1 Ha2].
  pose proof (Z.log2_spec b Hb) as [Hb1 Hb2].
  pose proof (Z.log2_nonneg a) as Hla. pose proof (Z.log2_nonneg b) as Hlb.
  set (la := Z.log2 a) in *. set (lb := Z.log2 b) in *.
  destruct (Z.leb_spec (b * 2 ^ Z.max 0 (la - lb))
              (a * 2 ^ Z.max 0 (- (la - lb)))) as [Htest | Htest].
  - split; [lia |]. split; [exact Htest |].
    replace (la - lb + 1) with (Z.succ la - lb) by lia.
    apply pow_frac_lt; lia.
  - split; [lia |]. split.
    + replace (la - lb - 1) with (la - Z.succ lb) by lia.
      apply pow_frac_le; lia.
    + replace (la - lb - 1 + 1) with (la - lb) by lia. exact Htest.
Qed.

Lemma quotient_exponent_le (a b : Z) :
  quotient_exponent a b <= Z.log2 a - Z.log2 b.
Proof.
  unfold quotient_exponent.
  destruct (b * 2 ^ Z.max 0 (Z.log2 a - Z.log2 b)
            <=? a * 2 ^ Z.max 0 (- (Z.log2 a - Z.log2 b))); lia.
Qed.

Lemma double_value_eq (m e : Z) :
  (double_value m e == inject_Z m * 2 ^ e)%Q.
Proof.
  unfold double_value. rewrite Qred_correct.
  destruct (Z.le_gt_cases 0 e) as [He | He].
  - replace (Z.max 0 e) with e by lia.
    replace (Z.max 0 (- e)) with 0 by lia.
    change (Z.to_pos (2 ^ 0)) with 1%positive.
    change (m * 2 ^ e # 1)%Q with (inject_Z (m * 2 ^ e)).
    rewrite inject_Z_mult, Zpower_Qpower by lia. reflexivity.
  - replace (Z.max 0 e) with 0 by lia.
    replace (Z.max 0 (- e)) with (- e) by lia.
    rewrite Z.pow_0_r, Z.mul_1_r.
    assert (Hpos : 0 < 2 ^ (- e)) by (apply Z.pow_pos_nonneg; lia).
    rewrite Qmake_Qdiv, Z2Pos.id by exact Hpos.
    rewrite Zpower_Qpower by lia. rewrite Qpower_opp.
    unfold Qdiv. rewrite Qinv_involutive. reflexivity.
Qed.

Lemma double_value_reduced (m e : Z) :
  Qred (double_value m e) = double_value m e.
Proof. apply Qred_complete, Qred_correct. Qed.

Lemma true_div_rounds (a b : Z) :
  0 <= a -> 0 < b -> rounded_quotient a b (true_div a b).
Proof.
  intros Ha Hb. unfold true_div.
  replace (a <? 0) with false by (symmetry; apply Z.ltb_ge; lia).
  replace (b <? 0) with false by (symmetry; apply Z.ltb_ge; lia).
  cbn [xorb]. rewrite (Z.abs_eq a), (Z.abs_eq b) by lia.
  set (e := Z.max (quotient_exponent a b - 52) (-1074)).
  set (y := b * 2 ^ Z.max 0 e). set (x := a * 2 ^ Z.max 0 (- e)).
  assert (Hy : 0 < y) by (pose proof (pow2_pos e); unfold y; nia).
  destruct (Z.eq_dec a 0) as [-> | Hnz].
  - assert (Hm : div_nearest_even x y = 0).
    { unfold div_nearest_even, x. rewrite Z.mul_0_l, Z.mod_0_l, Z.div_0_l by lia.
      destruct (Z.compare_spec (2 * 0) y); lia. }
    rewrite Hm. exists 0, (-1074).
    assert (Hzero : double_value 0 e = 0%Q).
    { unfold double_value. rewrite Z.mul_0_l.
      change 0%Q with (Qred 0). apply Qred_complete. reflexivity. }
    rewrite Hzero. split; [now rewrite Qmult_0_l |]. split; [reflexivity |].
    split; [lia |]. rewrite !Z.mul_0_l, Z.sub_0_l, Z.abs_opp.
    change (Z.abs 0) with 0.
    assert (Hpos : 0 < b * 2 ^ Z.max 0 (-1074))
      by (pose proof (pow2_pos (-1074)); nia).
    split; [lia |]. split; [now left |]. split; lia.
  - destruct (quotient_exponent_spec a b ltac:(lia) Hb) as (_ & Hlow & Hup).
    set (f := quotient_exponent a b) in *.
    exists (div_nearest_even x y), e.
    split; [apply double_value_eq |]. split; [apply double_value_reduced |].
    split; [lia |]. split; [| split].
    + apply scaled_lt_shift; [lia |].
      apply scaled_lt_mono with (f + 1); [assumption | lia | lia | exact Hup].
    + destruct (Z.le_gt_cases (-1074) (f - 52)) as [Hnormal | Hsub].
      * right. apply scaled_le_shift; [lia |].
        replace (e + 52) with f by lia. exact Hlow.
      * left. lia.
    + apply div_nearest_even_spec. exact Hy.
Qed.

Lemma true_div_bounds (a b n : Z) :
  0 <= a <= n -> 1 <= b -> n < 2 ^ 53 ->
  (0 <= true_div a b)%Q /\ (true_div a b <= inject_Z n)%Q.
Proof.
  intros Ha Hb Hn. unfold true_div.
  replace (a <? 0) with false by (symmetry; apply Z.ltb_ge; lia).
  replace (b <? 0) with false by (symmetry; apply Z.ltb_ge; lia).
  cbn [xorb]. rewrite (Z.abs_eq a), (Z.abs_eq b) by lia.
  set (e := Z.max (quotient_exponent a b - 52) (-1074)).
  assert (He : e <= 0).
  { pose proof (quotient_exponent_le a b) as Hf.
    pose proof (Z.log2_nonneg b) as Hlb.
    assert (Z.log2 a < 53).
    { destruct (Z.eq_dec a 0) as [-> | Hnz]; [reflexivity |].
      apply Z.log2_lt_pow2; lia. }
    unfold e. lia. }
  replace (Z.max 0 e) with 0 by lia. replace (Z.max 0 (- e)) with (- e) by lia.
  rewrite Z.pow_0_r, Z.mul_1_r.
  assert (Hp : 0 < 2 ^ (- e)) by (apply Z.pow_pos_nonneg; lia).
  assert (Hscale : a * 2 ^ (- e) <= n * 2 ^ (- e))
    by (apply Z.mul_le_mono_nonneg_r; lia).
  assert (Hwide : n * 2 ^ (- e) <= n * 2 ^ (- e) * b)
    by (rewrite <- (Z.mul_1_r (n * 2 ^ (- e))) at 1;
        apply Z.mul_le_mono_nonneg_l; nia).
  destruct (div_nearest_even_bounds (a * 2 ^ (- e)) b (n * 2 ^ (- e)))
    as [Hm0 Hm1]; [lia | nia | lia |].
  set (m := div_nearest_even (a * 2 ^ (- e)) b) in *.
  unfold double_value.
  replace (Z.max 0 e) with 0 by lia. replace (Z.max 0 (- e)) with (- e) by lia.
  rewrite Z.pow_0_r, Z.mul_1_r, Qred_correct.
  unfold Qle. cbn [Qnum Qden inject_Z]. rewrite Z2Pos.id by exact Hp.
  split; lia.
Qed.

(** On these inputs, normal and subnormal quotients and ties among them,
    [true_div] returns what the IEEE 754 division of the Standard Library
    returns at binary64. *)
Example true_div_agrees_with_SFdiv :
  forallb (fun '(a, b) =>
             match SFdiv_binary64 a b with
             | Some v => Qeq_bool v (true_div (Z.pos a) (Z.pos b))
                         && Qeq_bool (Qred v) v
             | None => false
             end)
    [ (297, 103); (1, 3); (2, 3); (3, 3); (1, 1); (7, 2); (355, 113);
      (9007199254740993, 1); (9007199254740995, 1); (9007199254740995, 7);
      (18014398509481985, 2); (123456789123456789123456789, 987654321);
      (1, 2 ^ 1070); (3, 2 ^ 1075); (5, 2 ^ 1076); (7, 3 * 2 ^ 1073);
      (1, 2 ^ 1080) ]%positive = true.
Proof. vm_compute. reflexivity. Qed.

(** ** The stability ratio *)

(** C2: on the stated input domain the traversal ends in a state [fin]; the
    value returned is 50.0 when [fin] holds zero splits, and otherwise it is
    [straight_paths / splits] of [fin]: the double [v = m * 2^e] nearest to
    the exact quotient, with [e] the exponent of its 53-bit mantissa, [m]
    within one half of the scaled quotient and even on a tie. *)
Theorem stability_ratio_value (modulus residue node_budget : Z) :
  1 <= modulus ->
  0 <= residue ->
  1 <= node_budget ->
  exists fin,
    traverse modulus residue node_budget = Some fin
    /\ step node_budget fin = None
    /\ (splits fin = 0 ->
        get_stability_ratio modulus residue node_budget = Some 50%Q)
    /\ (splits fin <> 0 ->
        exists (v : pyfloat) (m e : Z),
          let x := straight_paths fin * 2 ^ Z.max 0 (- e) in
          let y := splits fin * 2 ^ Z.max 0 e in
          get_stability_ratio modulus residue node_budget = Some v
          /\ v = true_div (straight_paths fin) (splits fin)
          /\ (v == inject_Z m * 2 ^ e)%Q
          /\ Qred v = v
          /\ -1074 <= e
          /\ x < 2 ^ 53 * y
          /\ (e = -1074 \/ 2 ^ 52 * y <= x)
          /\ 2 * Z.abs (x - m * y) <= y
          /\ (2 * Z.abs (x - m * y) = y -> Z.even m = true)).
Proof.
  intros _ _ _.
  destruct (traverse_exits modulus residue node_budget)
    as (n & fin & _ & _ & Hout & Htrav & _).
  pose proof (traverse_reaches _ _ _ _ Htrav) as Hreach.
  destruct (reaches_counters _ _ _ Hreach) as (_ & Hsp & Hsplits).
  cbn [initial_state straight_paths splits] in Hsp, Hsplits.
  exists fin. unfold get_stability_ratio, ratio_of. rewrite Htrav.
  cbn [option_map].
  split; [reflexivity |]. split; [exact Hout |]. split; intros Hs.
  - now rewrite Hs.
  - apply Z.eqb_neq in Hs. rewrite Hs.
    apply Z.eqb_neq in Hs.
    destruct (true_div_rounds (straight_paths fin) (splits fin))
      as (m & e & Hrounded); [lia | lia |].
    exists (true_div (straight_paths fin) (splits fin)), m, e.
    cbv zeta. split; [reflexivity |]. split; [reflexivity |].
    exact Hrounded.
Qed.

Lemma stability_ratio_value_witness :
  exists fin,
    traverse 32 987 400 = Some fin
    /\ step 400 fin = None
    /\ (splits fin = 0 -> get_stability_ratio 32 987 400 = Some 50%Q)
    /\ (splits fin <> 0 ->
        exists (v : pyfloat) (m e : Z),
          let x := straight_paths fin * 2 ^ Z.max 0 (- e) in
          let y := splits fin * 2 ^ Z.max 0 e in
          get_stability_ratio 32 987 400 = Some v
          /\ v = true_div (straight_paths fin) (splits fin)
          /\ (v == inject_Z m * 2 ^ e)%Q
          /\ Qred v = v
          /\ -1074 <= e
          /\ x < 2 ^ 53 * y
          /\ (e = -1074 \/ 2 ^ 52 * y <= x)
          /\ 2 * Z.abs (x - m * y) <= y
          /\ (2 * Z.abs (x - m * y) = y -> Z.even m = true)).
Proof.
  apply (stability_ratio_value 32 987 400); lia.
Defined.

(** The run on (32, 987) with budget 400 ends with 297 merges and 103
    splits; the double nearest to 297/103 is 1623263457923589 * 2^-49. *)
Example stability_ratio_32_987_400 :
  traverse 32 987 400 <> None
  /\ option_map straight_paths (traverse 32 987 400) = Some 297
  /\ option_map splits (traverse 32 987 400) = Some 103
  /\ get_stability_ratio 32 987 400 =
       Some (1623263457923589 # 562949953421312)%Q.
Proof. vm_compute. repeat split. discriminate. Qed.

(** C3: an iteration that dequeues an ambiguous stack (m, r) adds one to
    [splits] and appends child_A = (2m, r, depth+1) and then
    child_B = (2m, r+m, depth+1) to the deque; the residues of the two
    children differ by m and both moduli are 2m. *)
Theorem ambiguous_step_splits (depth_limit : Z) (st : loop_state)
    (curr : MaporaStack.t) (rest : list MaporaStack.t) :
  queue st = curr :: rest ->
  nodes st < depth_limit ->
  get_next_state curr = None ->
  let child_A :=
    MaporaStack.new (2 * MaporaStack.m curr) (MaporaStack.r curr)
      (MaporaStack.id curr ++ "A") (MaporaStack.layer curr + 1) in
  let child_B :=
    MaporaStack.new (2 * MaporaStack.m curr)
      (MaporaStack.r curr + MaporaStack.m curr)
      (MaporaStack.id curr ++ "B") (MaporaStack.layer curr + 1) in
  step depth_limit st =
    Some (mkLoop (rest ++ [child_A; child_B])
            (straight_paths st) (splits st + 1) (nodes st + 1))
  /\ MaporaStack.r child_B - MaporaStack.r child_A = MaporaStack.m curr
  /\ MaporaStack.m child_A = 2 * MaporaStack.m curr
  /\ MaporaStack.m child_B = 2 * MaporaStack.m curr.
Proof.
  intros Hq Hlt Hamb child_A child_B.
  split; [| subst child_A child_B; simpl; lia].
  rewrite (step_guarded depth_limit st curr rest Hq Hlt).
  unfold loop_body. rewrite (ambiguous_not_terminal curr Hamb), Hamb.
  unfold split_children. subst child_A child_B.
  now rewrite (Z.mul_comm (MaporaStack.m curr) 2).
Qed.

Lemma ambiguous_step_splits_witness :
  step 400 (mkLoop [MaporaStack.new 3 4 "ROOTM" 1] 1 0 1) =
    Some (mkLoop [MaporaStack.new 6 4 "ROOTMA" 2;
                  MaporaStack.new 6 7 "ROOTMB" 2] 1 1 2).
Proof.
  apply (ambiguous_step_splits 400
           (mkLoop [MaporaStack.new 3 4 "ROOTM" 1] 1 0 1)
           (MaporaStack.new 3 4 "ROOTM" 1) []);
    [reflexivity | simpl; lia | reflexivity].
Defined.

(** C5: an iteration that dequeues a stack with residue 1 and even modulus
    adds one to [nodes], appends nothing to the deque and leaves
    [straight_paths] and [splits] as they were. *)
Theorem terminal_step_only_counts_node (depth_limit : Z) (st : loop_state)
    (curr : MaporaStack.t) (rest : list MaporaStack.t) :
  queue st = curr :: rest ->
  nodes st < depth_limit ->
  MaporaStack.r curr = 1 ->
  Z.even (MaporaStack.m curr) = true ->
  step depth_limit st =
    Some (mkLoop rest (straight_paths st) (splits st) (nodes st + 1)).
Proof.
  intros Hq Hlt Hr Hm.
  rewrite (step_guarded depth_limit st curr rest Hq Hlt).
  unfold loop_body, is_terminal. now rewrite Hr, mod2_even, Hm.
Qed.

Lemma terminal_step_only_counts_node_witness :
  step 400 (mkLoop [MaporaStack.new 2 1 "ROOTDDDD" 4] 4 0 4) =
    Some (mkLoop [] 4 0 5).
Proof.
  apply (terminal_step_only_counts_node 400
           (mkLoop [MaporaStack.new 2 1 "ROOTDDDD" 4] 4 0 4)
           (MaporaStack.new 2 1 "ROOTDDDD" 4) []);
    [reflexivity | simpl; lia | reflexivity | reflexivity].
Defined.

(** ** Depth bookkeeping *)

Lemma get_next_state_layer curr nxt :
  get_next_state curr = Some nxt ->
  MaporaStack.layer nxt = MaporaStack.layer curr + 1.
Proof.
  unfold get_next_state.
  destruct (MaporaStack.r curr mod 2 =? 0);
    [destruct (MaporaStack.m curr mod 2 =? 0) |];
    try discriminate; now intros [= <-].
Qed.

Lemma split_children_layer curr :
  Forall (fun c => MaporaStack.layer c = MaporaStack.layer curr + 1)
         (split_children curr).
Proof.
  unfold split_children. repeat constructor.
Qed.

Lemma enqueued_layer curr :
  Forall (fun c => MaporaStack.layer c = MaporaStack.layer curr + 1)
         (enqueued curr).
Proof.
  unfold enqueued. destruct (is_terminal curr); [constructor |].
  destruct (get_next_state curr) as [nxt |] eqn:Hnext.
  - constructor; [now apply get_next_state_layer | constructor].
  - apply split_children_layer.
Qed.

(** C6: in a traversal from a root of depth 0, whenever a stack [curr] is
    dequeued, the successor that [get_next_state] gives, the two children of
    a split, and so every stack the iteration appends to the deque, have
    depth [curr.layer + 1]. *)
Theorem derived_depth_is_parent_plus_one
    (modulus residue depth_limit : Z) (st : loop_state)
    (curr : MaporaStack.t) (rest : list MaporaStack.t) :
  reaches depth_limit (initial_state modulus residue) st ->
  queue st = curr :: rest ->
  (forall nxt, get_next_state curr = Some nxt ->
     MaporaStack.layer nxt = MaporaStack.layer curr + 1)
  /\ Forall (fun c => MaporaStack.layer c = MaporaStack.layer curr + 1)
       (split_children curr)
  /\ (forall st', step depth_limit st = Some st' ->
        exists derived,
          queue st' = rest ++ derived
          /\ Forall (fun c => MaporaStack.layer c = MaporaStack.layer curr + 1)
               derived).
Proof.
  intros _ Hq. split; [intros nxt; apply get_next_state_layer |].
  split; [apply split_children_layer |].
  intros st' Hstep. apply step_some_inv in Hstep.
  destruct Hstep as (curr' & rest' & Hq' & _ & ->).
  rewrite Hq in Hq'. injection Hq' as <- <-.
  exists (enqueued curr). split; [apply loop_body_queue | apply enqueued_layer].
Qed.

Lemma derived_depth_is_parent_plus_one_witness :
  exists derived,
    queue (loop_body (MaporaStack.new 3 4 "ROOT" 0) [] (initial_state 3 4)) =
      [] ++ derived
    /\ Forall (fun c => MaporaStack.layer c = 0 + 1) derived.
Proof.
  apply (derived_depth_is_parent_plus_one 3 4 400 (initial_state 3 4)
           (MaporaStack.new 3 4 "ROOT" 0) []);
    [apply reaches_start | reflexivity | reflexivity].
Defined.

(** ** Termination and the budget *)

(** C4: for a positive budget the loop leaves after some number [n] of
    iterations with [n <= node_budget]; the guard is false in the state
    [fin] it leaves in, [nodes] equals [n] there and so does not exceed the
    budget, and the call returns a value. *)
Theorem traversal_terminates_within_budget (modulus residue node_budget : Z) :
  0 < node_budget ->
  exists n fin,
    (n <= Z.to_nat node_budget)%nat
    /\ run_steps node_budget n (initial_state modulus residue) = Some fin
    /\ step node_budget fin = None
    /\ traverse modulus residue node_budget = Some fin
    /\ nodes fin = Z.of_nat n
    /\ nodes fin <= node_budget
    /\ get_stability_ratio modulus residue node_budget = Some (ratio_of fin).
Proof.
  intros Hpos.
  destruct (traverse_exits modulus residue node_budget)
    as (n & fin & Hle & Hrun & Hout & Htrav & Hcount).
  exists n, fin. unfold get_stability_ratio. rewrite Htrav. simpl.
  repeat split; try assumption. lia.
Qed.

Lemma traversal_terminates_within_budget_witness :
  exists n fin,
    (n <= Z.to_nat 400)%nat
    /\ run_steps 400 n (initial_state 32 16) = Some fin
    /\ step 400 fin = None
    /\ traverse 32 16 400 = Some fin
    /\ nodes fin = Z.of_nat n
    /\ nodes fin <= 400
    /\ get_stability_ratio 32 16 400 = Some (ratio_of fin).
Proof.
  apply (traversal_terminates_within_budget 32 16 400). lia.
Defined.

(** C8: in every state a run passes through, [straight_paths], [splits]
    and [nodes] are non-negative, and an iteration from that state leaves
    none of them smaller. *)
Theorem counters_nonnegative_and_monotone
    (modulus residue depth_limit : Z) (st : loop_state) :
  reaches depth_limit (initial_state modulus residue) st ->
  (0 <= straight_paths st /\ 0 <= splits st /\ 0 <= nodes st)
  /\ (forall st', step depth_limit st = Some st' ->
        straight_paths st <= straight_paths st'
        /\ splits st <= splits st'
        /\ nodes st <= nodes st').
Proof.
  intros Hreach. apply reaches_counters in Hreach. simpl in Hreach.
  split; [lia |].
  intros st' Hstep. apply step_counters in Hstep. lia.
Qed.

Lemma counters_nonnegative_and_monotone_witness :
  0 <= straight_paths (loop_body (MaporaStack.new 32 16 "ROOT" 0) []
                         (initial_state 32 16))
  /\ 0 <= splits (loop_body (MaporaStack.new 32 16 "ROOT" 0) []
                    (initial_state 32 16))
  /\ 0 <= nodes (loop_body (MaporaStack.new 32 16 "ROOT" 0) []
                   (initial_state 32 16)).
Proof.
  apply (counters_nonnegative_and_monotone 32 16 400
           (loop_body (MaporaStack.new 32 16 "ROOT" 0) []
              (initial_state 32 16))).
  apply reaches_step with (initial_state 32 16);
    [apply reaches_start | reflexivity].
Defined.

(** ** Concrete runs *)


(** The fuel of the model plays no part in the result: the call returns a
    value, and any fuel that covers the budget gives that value. *)
Lemma stability_ratio_fuel_independent (modulus residue node_budget : Z) :
  exists ratio,
    get_stability_ratio modulus residue node_budget = Some ratio
    /\ forall fuel, (Z.to_nat node_budget <= fuel)%nat ->
         option_map ratio_of
           (while_loop fuel node_budget (initial_state modulus residue)) =
         Some ratio.
Proof.
  destruct (traverse_exits modulus residue node_budget)
    as (n & fin & _ & _ & _ & Htrav & _).
  exists (ratio_of fin). unfold get_stability_ratio. rewrite Htrav.
  split; [reflexivity |]. intros fuel Hfuel.
  now rewrite (while_loop_more_fuel node_budget _ fuel _ fin Htrav Hfuel).
Qed.



(** ** The transition rule and the Collatz map *)

(** [Some a = Some b] to [a = b], without reducing [a] and [b]. *)
Ltac some_eq H :=
  match type of H with
  | Some ?a = Some ?b =>
      apply (f_equal (fun o => match o with Some x => x | None => a end)) in H;
      cbv beta iota in H
  end.

Lemma even_affine (a k b : Z) :
  Z.even a = true -> Z.even (a * k + b) = Z.even b.
Proof.
  intros Ha. rewrite Z.even_add, Z.even_mul, Ha. simpl.
  now destruct (Z.even b).
Qed.

(** X1: for an even modulus the successor class is the image of the class under
    the Collatz map, member by member: the member of index [k] goes to the
    member of index [k]. *)
Theorem next_state_tracks_collatz (s s' : MaporaStack.t) (k : Z) :
  Z.even (MaporaStack.m s) = true ->
  get_next_state s = Some s' ->
  collatz (MaporaStack.m s * k + MaporaStack.r s) =
    MaporaStack.m s' * k + MaporaStack.r s'.
Proof.
  intros Hm. unfold get_next_state, collatz.
  rewrite !mod2_even, Hm, (even_affine _ k _ Hm).
  apply Z.even_spec in Hm. destruct Hm as [m2 Hm].
  destruct (Z.even (MaporaStack.r s)) eqn:Hr; intros Hs'; some_eq Hs';
    subst s'; cbn [MaporaStack.m MaporaStack.r].
  - apply Z.even_spec in Hr. destruct Hr as [r2 Hr].
    rewrite Hm, Hr.
    replace (2 * m2 * k + 2 * r2) with ((m2 * k + r2) * 2) by ring.
    rewrite Z.div_mul by lia.
    rewrite !(Z.mul_comm 2), !Z.div_mul by lia. reflexivity.
  - ring.
Qed.

Lemma next_state_tracks_collatz_witness :
  collatz (32 * 5 + 987) = 96 * 5 + 2962.
Proof.
  apply (next_state_tracks_collatz
           (MaporaStack.new 32 987 "ROOT" 0)
           (MaporaStack.new 96 2962 "ROOTM" 1) 5);
    reflexivity.
Defined.

Lemma ambiguous_parities curr :
  get_next_state curr = None ->
  Z.even (MaporaStack.r curr) = true /\ Z.even (MaporaStack.m curr) = false.
Proof.
  unfold get_next_state. rewrite !mod2_even.
  destruct (Z.even (MaporaStack.r curr)); [| discriminate].
  destruct (Z.even (MaporaStack.m curr)); [discriminate |]. now split.
Qed.

(** X2: the two children of a split partition the class by parity: child A
    holds the members of even index, which are the even members, child B
    those of odd index, which are the odd members. *)
Theorem split_children_partition_by_parity (curr : MaporaStack.t) :
  get_next_state curr = None ->
  exists child_A child_B,
    split_children curr = [child_A; child_B]
    /\ (forall j,
          MaporaStack.m child_A * j + MaporaStack.r child_A =
            MaporaStack.m curr * (2 * j) + MaporaStack.r curr
          /\ Z.even (MaporaStack.m child_A * j + MaporaStack.r child_A) = true)
    /\ (forall j,
          MaporaStack.m child_B * j + MaporaStack.r child_B =
            MaporaStack.m curr * (2 * j + 1) + MaporaStack.r curr
          /\ Z.odd (MaporaStack.m child_B * j + MaporaStack.r child_B) = true)
    /\ (forall k,
          MaporaStack.m curr * k + MaporaStack.r curr =
            if Z.even k
            then MaporaStack.m child_A * (k / 2) + MaporaStack.r child_A
            else MaporaStack.m child_B * (k / 2) + MaporaStack.r child_B).
Proof.
  intros Hamb. destruct (ambiguous_parities curr Hamb) as [Hr Hm].
  eexists _, _. split; [reflexivity |]. cbn [MaporaStack.m MaporaStack.r].
  assert (Hdouble : Z.even (MaporaStack.m curr * 2) = true)
    by now rewrite Z.even_mul, orb_true_r.
  split; [| split].
  - intros j. split; [ring |]. now rewrite (even_affine _ j _ Hdouble).
  - intros j. split; [ring |].
    rewrite <- Z.negb_even, (even_affine _ j _ Hdouble), Z.even_add, Hr, Hm.
    reflexivity.
  - intros k. destruct (Z.even k) eqn:Hk.
    + apply Z.even_spec in Hk. destruct Hk as [j ->].
      rewrite (Z.mul_comm 2 j), Z.div_mul by lia. ring.
    + rewrite <- Z.negb_odd in Hk. apply negb_false_iff in Hk.
      apply Z.odd_spec in Hk. destruct Hk as [j ->].
      replace ((2 * j + 1) / 2) with j; [ring |].
      apply Z.div_unique with 1; lia.
Qed.

Lemma split_children_partition_by_parity_witness :
  exists child_A child_B,
    split_children (MaporaStack.new 3 4 "ROOT" 0) = [child_A; child_B]
    /\ (forall j,
          MaporaStack.m child_A * j + MaporaStack.r child_A = 3 * (2 * j) + 4
          /\ Z.even (MaporaStack.m child_A * j + MaporaStack.r child_A) = true)
    /\ (forall j,
          MaporaStack.m child_B * j + MaporaStack.r child_B =
            3 * (2 * j + 1) + 4
          /\ Z.odd (MaporaStack.m child_B * j + MaporaStack.r child_B) = true)
    /\ (forall k,
          3 * k + 4 =
            if Z.even k
            then MaporaStack.m child_A * (k / 2) + MaporaStack.r child_A
            else MaporaStack.m child_B * (k / 2) + MaporaStack.r child_B).
Proof.
  apply (split_children_partition_by_parity (MaporaStack.new 3 4 "ROOT" 0)).
  reflexivity.
Defined.

(** X3: a split is never followed by a split: child A is halved back to the
    parent's modulus with half the residue, child B takes the 3n+1 step. *)
Theorem split_then_step_is_deterministic (curr : MaporaStack.t) :
  get_next_state curr = None ->
  map get_next_state (split_children curr) =
    [ Some (MaporaStack.new (MaporaStack.m curr) (MaporaStack.r curr / 2)
              ((MaporaStack.id curr ++ "A") ++ "D")
              (MaporaStack.layer curr + 1 + 1));
      Some (MaporaStack.new (3 * (MaporaStack.m curr * 2))
              (3 * (MaporaStack.r curr + MaporaStack.m curr) + 1)
              ((MaporaStack.id curr ++ "B") ++ "M")
              (MaporaStack.layer curr + 1 + 1)) ].
Proof.
  intros Hamb. destruct (ambiguous_parities curr Hamb) as [Hr Hm].
  unfold split_children, get_next_state.
  cbn [map MaporaStack.m MaporaStack.r MaporaStack.id MaporaStack.layer].
  rewrite !mod2_even, Hr, Z.even_add, Hr, Hm, Z.even_mul, orb_true_r.
  cbn [xorb negb Bool.eqb]. now rewrite Z.div_mul by lia.
Qed.

Lemma split_then_step_is_deterministic_witness :
  map get_next_state (split_children (MaporaStack.new 3 4 "ROOT" 0)) =
    [ Some (MaporaStack.new 3 2 "ROOTAD" 2);
      Some (MaporaStack.new 18 22 "ROOTBM" 2) ].
Proof.
  apply (split_then_step_is_deterministic (MaporaStack.new 3 4 "ROOT" 0)).
  reflexivity.
Defined.

(** ** Invariants of the traversal *)

Section TraversalInvariants.

Variable depth_limit : Z.

(** What one iteration does to the deque and the counters together: a
    terminal stack takes one stack away, a merge replaces one by one, a
    split replaces one by two. *)
Lemma step_accounting st st' :
  step depth_limit st = Some st' ->
  Z.of_nat (List.length (queue st')) + nodes st'
    - straight_paths st' - 2 * splits st' =
  Z.of_nat (List.length (queue st)) + nodes st
    - straight_paths st - 2 * splits st
  /\ straight_paths st' + splits st' <= straight_paths st + splits st + 1.
Proof.
  intros Hstep. apply step_some_inv in Hstep.
  destruct Hstep as (curr & rest & Hq & _ & ->).
  rewrite Hq. unfold loop_body.
  destruct (is_terminal curr); [| destruct (get_next_state curr)];
    cbn [queue straight_paths splits nodes];
    rewrite ?List.length_app; cbn [List.length split_children]; lia.
Qed.

Lemma reaches_accounting modulus residue st :
  reaches depth_limit (initial_state modulus residue) st ->
  Z.of_nat (List.length (queue st)) + nodes st =
    1 + straight_paths st + 2 * splits st
  /\ straight_paths st + splits st <= nodes st.
Proof.
  induction 1 as [| st st' _ IH Hstep]; [simpl; lia |].
  pose proof (step_counters _ _ _ Hstep) as (_ & Hnodes & _).
  apply step_accounting in Hstep. lia.
Qed.

Lemma step_budget_mono budget' st st' :
  depth_limit <= budget' ->
  step depth_limit st = Some st' ->
  step budget' st = Some st'.
Proof.
  intros Hle Hstep. apply step_some_inv in Hstep.
  destruct Hstep as (curr & rest & Hq & Hlt & ->).
  apply step_guarded; [exact Hq | lia].
Qed.

Lemma run_steps_budget_mono budget' :
  depth_limit <= budget' ->
  forall n st st',
    run_steps depth_limit n st = Some st' ->
    run_steps budget' n st = Some st'.
Proof.
  intros Hle. induction n as [| n IH]; intros st st'; simpl; [trivial |].
  destruct (step depth_limit st) as [st1 |] eqn:Hstep; [| discriminate].
  rewrite (step_budget_mono budget' st st1 Hle Hstep). apply IH.
Qed.

(** The loop started in a state that the run passes through ends where the
    run ends. *)
Lemma run_steps_while_loop :
  forall n fuel st st' fin,
    run_steps depth_limit n st = Some st' ->
    while_loop fuel depth_limit st = Some fin ->
    while_loop fuel depth_limit st' = Some fin.
Proof.
  induction n as [| n IH]; intros fuel st st' fin; simpl.
  - now intros [= <-].
  - destruct (step depth_limit st) as [st1 |] eqn:Hstep; [| discriminate].
    intros Hrun Hloop. destruct fuel as [| fuel]; simpl in Hloop;
      rewrite Hstep in Hloop; [discriminate |].
    apply while_loop_more_fuel with fuel; [| lia].
    now apply IH with st1.
Qed.

Lemma while_loop_guard_fails st fuel :
  step depth_limit st = None ->
  while_loop fuel depth_limit st = Some st.
Proof.
  intros Hout. destruct fuel; cbn [while_loop]; now rewrite Hout.
Qed.

End TraversalInvariants.

(** X4: in every state of a run, deque length plus nodes processed equals
    1 + straight_paths + 2 * splits; so merges and splits together never
    exceed the nodes processed, and the deque never holds more than
    1 + splits stacks. *)
Theorem frontier_accounting (modulus residue depth_limit : Z)
    (st : loop_state) :
  reaches depth_limit (initial_state modulus residue) st ->
  Z.of_nat (List.length (queue st)) + nodes st =
    1 + straight_paths st + 2 * splits st
  /\ straight_paths st + splits st <= nodes st
  /\ Z.of_nat (List.length (queue st)) <= 1 + splits st.
Proof.
  intros Hreach. apply reaches_accounting in Hreach. lia.
Qed.

Lemma frontier_accounting_witness :
  Z.of_nat (List.length (queue (mkLoop [MaporaStack.new 6 4 "ROOTA" 1;
                                   MaporaStack.new 6 7 "ROOTB" 1] 0 1 1)))
    <= 1 + 1.
Proof.
  apply (frontier_accounting 3 4 400
           (mkLoop [MaporaStack.new 6 4 "ROOTA" 1;
                    MaporaStack.new 6 7 "ROOTB" 1] 0 1 1)).
  apply reaches_step with (initial_state 3 4);
    [apply reaches_start | reflexivity].
Defined.

(** X5: for a budget from 1 to 2^53 the ratio returned is never negative
    and never above the larger of 50 and [node_budget - 1]. *)
Theorem stability_ratio_bounds (modulus residue node_budget : Z) :
  1 <= node_budget ->
  node_budget <= 2 ^ 53 ->
  exists ratio,
    get_stability_ratio modulus residue node_budget = Some ratio
    /\ (0 <= ratio)%Q
    /\ (ratio <= inject_Z (Z.max 50 (node_budget - 1)))%Q.
Proof.
  intros Hpos Hexact.
  destruct (traverse_exits modulus residue node_budget)
    as (n & fin & Hle & _ & _ & Htrav & Hcount).
  pose proof (traverse_reaches _ _ _ _ Htrav) as Hreach.
  destruct (reaches_counters _ _ _ Hreach) as (_ & Hsp & Hsplits).
  destruct (reaches_accounting _ _ _ _ Hreach) as (_ & Hsum).
  cbn [initial_state straight_paths splits] in Hsp, Hsplits.
  exists (ratio_of fin). unfold get_stability_ratio. rewrite Htrav.
  split; [reflexivity |]. unfold ratio_of.
  destruct (Z.eqb_spec (splits fin) 0) as [Hz | Hnz].
  - unfold float_50, Qle. simpl. lia.
  - destruct (true_div_bounds (straight_paths fin) (splits fin)
                (node_budget - 1)) as [Hlow Hhigh]; [lia | lia | lia |].
    split; [exact Hlow |].
    apply Qle_trans with (inject_Z (node_budget - 1)); [exact Hhigh |].
    rewrite <- Zle_Qle. lia.
Qed.

Lemma stability_ratio_bounds_witness :
  exists ratio,
    get_stability_ratio 32 987 400 = Some ratio
    /\ (0 <= ratio)%Q
    /\ (ratio <= inject_Z (Z.max 50 (400 - 1)))%Q.
Proof.
  apply (stability_ratio_bounds 32 987 400); [lia | vm_compute; discriminate].
Defined.

(** Why the bound stops at 2^53: above it [node_budget - 1] need not be a
    double, and the division can round above it.  From the root
    (3 * 2^j, 2 * 2^j) the loop halves [j] times and splits once; with
    budget [j + 1] it returns [j / 1]. *)
Lemma halve_then_split_loop (depth_limit : Z) :
  forall (j : nat) (fuel : nat) label depth sp spl nd,
    (j < fuel)%nat ->
    nd + Z.of_nat j + 1 = depth_limit ->
    exists q,
      while_loop fuel depth_limit
        (mkLoop [MaporaStack.new (3 * 2 ^ Z.of_nat j) (2 * 2 ^ Z.of_nat j)
                   label depth] sp spl nd) =
        Some (mkLoop q (sp + Z.of_nat j) (spl + 1) (nd + Z.of_nat j + 1)).
Proof.
  induction j as [| j IH]; intros fuel label depth sp spl nd Hfuel Hbudget;
    (destruct fuel as [| fuel]; [lia |]).
  - change (Z.of_nat 0) with 0 in *. rewrite Z.pow_0_r, !Z.mul_1_r.
    cbn [while_loop]. unfold step at 1. cbn [queue nodes].
    replace (nd <? depth_limit) with true by (symmetry; apply Z.ltb_lt; lia).
    unfold loop_body.
    change (is_terminal (MaporaStack.new 3 2 label depth)) with false.
    change (get_next_state (MaporaStack.new 3 2 label depth))
      with (@None MaporaStack.t).
    cbv iota. cbn [straight_paths splits nodes].
    eexists. rewrite while_loop_guard_fails
      by (apply step_none_budget; cbn [nodes]; lia).
    do 2 f_equal; lia.
  - assert (Hpos : 0 < 2 ^ Z.of_nat j) by (apply Z.pow_pos_nonneg; lia).
    assert (Hm : (3 * 2 ^ Z.of_nat (S j)) mod 2 = 0
                 /\ (2 * 2 ^ Z.of_nat (S j)) mod 2 = 0
                 /\ 3 * 2 ^ Z.of_nat (S j) / 2 = 3 * 2 ^ Z.of_nat j
                 /\ 2 * 2 ^ Z.of_nat (S j) / 2 = 2 * 2 ^ Z.of_nat j
                 /\ 2 * 2 ^ Z.of_nat (S j) <> 1).
    { rewrite Nat2Z.inj_succ, Z.pow_succ_r by lia.
      replace (3 * (2 * 2 ^ Z.of_nat j)) with (3 * 2 ^ Z.of_nat j * 2) by ring.
      replace (2 * (2 * 2 ^ Z.of_nat j)) with (2 * 2 ^ Z.of_nat j * 2) by ring.
      rewrite !Z.mod_mul, !Z.div_mul by lia. repeat split. lia. }
    destruct Hm as (Hm & Hr & Hm2 & Hr2 & Hne).
    cbn [while_loop]. unfold step at 1. cbn [queue nodes].
    replace (nd <? depth_limit) with true by (symmetry; apply Z.ltb_lt; lia).
    unfold loop_body, is_terminal, get_next_state.
    cbn [MaporaStack.m MaporaStack.r MaporaStack.id MaporaStack.layer].
    apply Z.eqb_neq in Hne. rewrite Hne, Hm, Hr, Hm2, Hr2.
    cbn [andb Z.eqb app straight_paths splits nodes].
    destruct (IH fuel (label ++ "D")%string (depth + 1) (sp + 1) spl (nd + 1))
      as (q & Hloop); [lia | lia |].
    exists q. rewrite Hloop. do 2 f_equal; lia.
Qed.

Lemma halve_then_split_ratio (j : Z) :
  0 <= j ->
  get_stability_ratio (3 * 2 ^ j) (2 * 2 ^ j) (j + 1) = Some (true_div j 1).
Proof.
  intros Hj. unfold get_stability_ratio, traverse, initial_state.
  destruct (halve_then_split_loop (j + 1) (Z.to_nat j) (Z.to_nat (j + 1))
              "ROOT" 0 0 0 0) as (q & Hloop); [lia | lia |].
  rewrite Z2Nat.id in Hloop by exact Hj. rewrite Hloop.
  cbn [option_map]. unfold ratio_of.
  cbn [splits straight_paths Z.add Z.eqb]. reflexivity.
Qed.

Lemma stability_ratio_exceeds_budget_beyond_2_53 :
  exists ratio,
    get_stability_ratio (3 * 2 ^ 9007199254740995) (2 * 2 ^ 9007199254740995)
      9007199254740996 = Some ratio
    /\ ~ (ratio <= inject_Z (Z.max 50 (9007199254740996 - 1)))%Q.
Proof.
  exists (true_div 9007199254740995 1). split.
  - apply (halve_then_split_ratio 9007199254740995). lia.
  - vm_compute. intros Hle. apply Hle. reflexivity.
Qed.

(** X6: on return either the deque is empty or the budget is used up exactly:
    a run that processed fewer nodes than the budget explored everything. *)
Theorem traversal_exit_reason (modulus residue node_budget : Z)
    (fin : loop_state) :
  0 <= node_budget ->
  traverse modulus residue node_budget = Some fin ->
  nodes fin <= node_budget
  /\ (nodes fin < node_budget -> queue fin = [])
  /\ (queue fin <> [] -> nodes fin = node_budget).
Proof.
  intros Hpos Htrav.
  destruct (traverse_exits modulus residue node_budget)
    as (n & fin' & Hle & _ & Hout & Htrav' & Hcount).
  rewrite Htrav in Htrav'. injection Htrav' as <-.
  assert (Hbound : nodes fin <= node_budget) by lia.
  unfold step in Hout. destruct (queue fin) as [| curr rest].
  - repeat split; [exact Hbound | congruence].
  - destruct (nodes fin <? node_budget) eqn:Hlt; [discriminate |].
    apply Z.ltb_ge in Hlt. repeat split; [exact Hbound | lia | lia].
Qed.

Lemma traversal_exit_reason_witness :
  nodes (mkLoop [] 4 0 5) <= 400
  /\ (nodes (mkLoop [] 4 0 5) < 400 -> queue (mkLoop [] 4 0 5) = [])
  /\ (queue (mkLoop [] 4 0 5) <> [] -> nodes (mkLoop [] 4 0 5) = 400).
Proof.
  apply (traversal_exit_reason 32 16 400 (mkLoop [] 4 0 5));
    [lia | vm_compute; reflexivity].
Defined.

(** X7: a larger budget continues the run of a smaller one: none of the three
    counters is smaller on return. *)
Theorem larger_budget_extends_run (modulus residue budget budget' : Z)
    (fin fin' : loop_state) :
  budget <= budget' ->
  traverse modulus residue budget = Some fin ->
  traverse modulus residue budget' = Some fin' ->
  reaches budget' fin fin'
  /\ nodes fin <= nodes fin'
  /\ straight_paths fin <= straight_paths fin'
  /\ splits fin <= splits fin'.
Proof.
  intros Hle Htrav Htrav'.
  destruct (traverse_exits modulus residue budget)
    as (n & fin0 & _ & Hrun & _ & Htrav0 & _).
  rewrite Htrav in Htrav0. injection Htrav0 as <-.
  apply (run_steps_budget_mono budget budget' Hle) in Hrun.
  pose proof (run_steps_while_loop budget' n _ _ _ _ Hrun Htrav') as Hcont.
  assert (Hreach : reaches budget' fin fin')
    by (apply (while_loop_reaches budget' fin (Z.to_nat budget') fin fin');
        [apply reaches_start | exact Hcont]).
  split; [exact Hreach |]. now apply reaches_counters with budget'.
Qed.

Lemma larger_budget_extends_run_witness :
  nodes (mkLoop [MaporaStack.new 48 1481 "ROOTMD" 2] 2 0 2) <=
    nodes (mkLoop [MaporaStack.new 144 4444 "ROOTMDM" 3] 3 0 3).
Proof.
  apply (larger_budget_extends_run 32 987 2 3
           (mkLoop [MaporaStack.new 48 1481 "ROOTMD" 2] 2 0 2)
           (mkLoop [MaporaStack.new 144 4444 "ROOTMDM" 3] 3 0 3));
    [lia | vm_compute; reflexivity | vm_compute; reflexivity].
Defined.

(** X8: a run that ends with an empty deque has explored everything: every
    larger budget returns the same counters and the same ratio. *)
Theorem complete_run_is_budget_independent
    (modulus residue budget budget' : Z) (fin : loop_state) :
  budget <= budget' ->
  traverse modulus residue budget = Some fin ->
  queue fin = [] ->
  traverse modulus residue budget' = Some fin
  /\ get_stability_ratio modulus residue budget' =
       get_stability_ratio modulus residue budget.
Proof.
  intros Hle Htrav Hempty.
  destruct (traverse_exits modulus residue budget)
    as (n & fin0 & _ & Hrun & _ & Htrav0 & _).
  rewrite Htrav in Htrav0. injection Htrav0 as <-.
  destruct (traverse_exits modulus residue budget')
    as (n' & fin' & _ & _ & _ & Htrav' & _).
  apply (run_steps_budget_mono budget budget' Hle) in Hrun.
  pose proof (run_steps_while_loop budget' n _ _ _ _ Hrun Htrav') as Hcont.
  rewrite while_loop_guard_fails in Hcont
    by (unfold step; now rewrite Hempty).
  injection Hcont as <-.
  split; [exact Htrav' |].
  unfold get_stability_ratio. now rewrite Htrav, Htrav'.
Qed.

Lemma complete_run_is_budget_independent_witness :
  traverse 32 16 100000 = Some (mkLoop [] 4 0 5)
  /\ get_stability_ratio 32 16 100000 = get_stability_ratio 32 16 5.
Proof.
  apply (complete_run_is_budget_independent 32 16 5 100000 (mkLoop [] 4 0 5));
    [lia | vm_compute; reflexivity | reflexivity].
Defined.

(** ** Shape of the deque *)

Lemma string_length_append (s1 s2 : string) :
  String.length (s1 ++ s2) = (String.length s1 + String.length s2)%nat.
Proof.
  induction s1 as [| c s1 IH]; simpl; [reflexivity | now rewrite IH].
Qed.

Lemma two_layers_step depth_limit st st' :
  two_layers (queue st) ->
  step depth_limit st = Some st' ->
  two_layers (queue st').
Proof.
  intros (l & front & back & Hq & Hfront & Hback) Hstep.
  apply step_some_inv in Hstep.
  destruct Hstep as (curr & rest & Hq' & _ & ->).
  rewrite loop_body_queue. rewrite Hq in Hq'.
  pose proof (enqueued_layer curr) as Hkids.
  destruct front as [| a front]; simpl in Hq'.
  - subst back. inversion Hback as [| ? ? Hcurr Hrest]; subst.
    exists (l + 1), rest, (enqueued curr). rewrite Hcurr in Hkids.
    repeat split; assumption.
  - injection Hq' as -> <-. inversion Hfront as [| ? ? Hcurr Hrest]; subst.
    exists (MaporaStack.layer curr), front, (back ++ enqueued curr).
    repeat split; [now rewrite app_assoc | assumption |].
    apply Forall_app. now split.
Qed.

Lemma reaches_two_layers depth_limit modulus residue st :
  reaches depth_limit (initial_state modulus residue) st ->
  two_layers (queue st).
Proof.
  induction 1 as [| st st' _ IH Hstep].
  - exists 0, [MaporaStack.new modulus residue "ROOT" 0], [].
    repeat split; repeat constructor.
  - now apply two_layers_step with depth_limit st.
Qed.

(** X9: the traversal is breadth first: in every state of a run the deque is a
    block of stacks of one layer followed by a block of the next layer, so
    no queued stack is shallower than the head or more than one layer
    deeper. *)
Theorem frontier_is_breadth_first (modulus residue depth_limit : Z)
    (st : loop_state) (curr : MaporaStack.t) (rest : list MaporaStack.t) :
  reaches depth_limit (initial_state modulus residue) st ->
  queue st = curr :: rest ->
  two_layers (queue st)
  /\ Forall (fun c => MaporaStack.layer curr <= MaporaStack.layer c
                      <= MaporaStack.layer curr + 1) rest.
Proof.
  intros Hreach Hq.
  pose proof (reaches_two_layers _ _ _ _ Hreach) as Htwo.
  split; [exact Htwo |].
  destruct Htwo as (l & front & back & Hq' & Hfront & Hback).
  rewrite Hq in Hq'. destruct front as [| a front]; simpl in Hq'.
  - subst back. inversion Hback as [| ? ? Hcurr Hrest]; subst.
    eapply Forall_impl; [| exact Hrest]. simpl. intros c Hc. lia.
  - injection Hq' as -> ->. inversion Hfront as [| ? ? Hcurr Hrest]; subst.
    apply Forall_app. split.
    + eapply Forall_impl; [| exact Hrest]. simpl. intros c Hc. lia.
    + eapply Forall_impl; [| exact Hback]. simpl. intros c Hc. lia.
Qed.

Lemma frontier_is_breadth_first_witness :
  Forall (fun c => 1 <= MaporaStack.layer c <= 1 + 1)
         [MaporaStack.new 6 7 "ROOTB" 1].
Proof.
  apply (frontier_is_breadth_first 3 4 400
           (mkLoop [MaporaStack.new 6 4 "ROOTA" 1;
                    MaporaStack.new 6 7 "ROOTB" 1] 0 1 1)
           (MaporaStack.new 6 4 "ROOTA" 1)
           [MaporaStack.new 6 7 "ROOTB" 1]).
  - apply reaches_step with (initial_state 3 4);
      [apply reaches_start | reflexivity].
  - reflexivity.
Defined.

Lemma enqueued_in_domain curr :
  in_domain curr -> Forall in_domain (enqueued curr).
Proof.
  unfold in_domain, enqueued, get_next_state, split_children.
  intros [Hm Hr]. destruct (is_terminal curr); [constructor |].
  destruct (MaporaStack.r curr mod 2 =? 0) eqn:Hr2.
  - destruct (Z.eqb_spec (MaporaStack.m curr mod 2) 0) as [Hm2 |].
    + repeat constructor; cbn [MaporaStack.m MaporaStack.r].
      * apply Z.div_le_lower_bound; [lia |].
        destruct (Z.eq_dec (MaporaStack.m curr) 1) as [H1 |]; [| lia].
        rewrite H1 in Hm2. discriminate.
      * apply Z.div_pos; lia.
    + repeat constructor; cbn [MaporaStack.m MaporaStack.r]; lia.
  - repeat constructor; cbn [MaporaStack.m MaporaStack.r]; lia.
Qed.

(** X10: a run from a root inside the domain of the rule never leaves it: every
    stack in the deque has modulus >= 1 and residue >= 0. *)
Theorem traversal_stays_in_domain (modulus residue depth_limit : Z)
    (st : loop_state) :
  1 <= modulus ->
  0 <= residue ->
  reaches depth_limit (initial_state modulus residue) st ->
  Forall in_domain (queue st).
Proof.
  intros Hm Hr. induction 1 as [| st st' _ IH Hstep].
  - repeat constructor; assumption.
  - apply step_some_inv in Hstep.
    destruct Hstep as (curr & rest & Hq & _ & ->).
    rewrite loop_body_queue. rewrite Hq in IH.
    inversion IH as [| ? ? Hcurr Hrest]; subst.
    apply Forall_app. split; [assumption | now apply enqueued_in_domain].
Qed.

Lemma traversal_stays_in_domain_witness :
  Forall in_domain [MaporaStack.new 6 4 "ROOTA" 1;
                    MaporaStack.new 6 7 "ROOTB" 1].
Proof.
  apply (traversal_stays_in_domain 3 4 400
           (mkLoop [MaporaStack.new 6 4 "ROOTA" 1;
                    MaporaStack.new 6 7 "ROOTB" 1] 0 1 1));
    [lia | lia |].
  apply reaches_step with (initial_state 3 4);
    [apply reaches_start | reflexivity].
Defined.

Lemma enqueued_label curr :
  Forall (fun c => String.length (MaporaStack.id c) =
                     S (String.length (MaporaStack.id curr)))
         (enqueued curr).
Proof.
  unfold enqueued, get_next_state, split_children.
  destruct (is_terminal curr); [constructor |].
  destruct (MaporaStack.r curr mod 2 =? 0);
    [destruct (MaporaStack.m curr mod 2 =? 0) |];
    repeat constructor; cbn [MaporaStack.id];
    rewrite string_length_append; simpl; lia.
Qed.

(** X11: labels record the path: in every state of a run each queued stack has
    a layer between 0 and the number of nodes processed, and a label of
    4 + layer characters (["ROOT"] and one letter per transition). *)
Theorem queued_layer_and_label (modulus residue depth_limit : Z)
    (st : loop_state) :
  reaches depth_limit (initial_state modulus residue) st ->
  Forall (fun c =>
            0 <= MaporaStack.layer c <= nodes st
            /\ Z.of_nat (String.length (MaporaStack.id c)) =
                 4 + MaporaStack.layer c)
         (queue st).
Proof.
  induction 1 as [| st st' _ IH Hstep]; [repeat constructor; simpl; lia |].
  pose proof (step_counters _ _ _ Hstep) as (_ & Hnodes & _).
  apply step_some_inv in Hstep.
  destruct Hstep as (curr & rest & Hq & _ & ->).
  rewrite loop_body_queue, Hnodes. rewrite Hq in IH.
  inversion IH as [| ? ? Hcurr Hrest]; subst.
  apply Forall_app. split.
  - eapply Forall_impl; [| exact Hrest]. simpl. intros c Hc. lia.
  - pose proof (enqueued_layer curr) as Hlayer.
    pose proof (enqueued_label curr) as Hlabel.
    rewrite Forall_forall in Hlayer, Hlabel. apply Forall_forall.
    intros c Hc. specialize (Hlayer c Hc). specialize (Hlabel c Hc). lia.
Qed.

Lemma queued_layer_and_label_witness :
  Forall (fun c =>
            0 <= MaporaStack.layer c <= 1
            /\ Z.of_nat (String.length (MaporaStack.id c)) =
                 4 + MaporaStack.layer c)
         [MaporaStack.new 6 4 "ROOTA" 1; MaporaStack.new 6 7 "ROOTB" 1].
Proof.
  apply (queued_layer_and_label 3 4 400
           (mkLoop [MaporaStack.new 6 4 "ROOTA" 1;
                    MaporaStack.new 6 7 "ROOTB" 1] 0 1 1)).
  apply reaches_step with (initial_state 3 4);
    [apply reaches_start | reflexivity].
Defined.

(** ** Halving chains *)





(** ** The loop of the tree image *)

Lemma subtree_bound_pos (l : Z) : (1 <= subtree_bound l)%nat.
Proof.
  unfold subtree_bound. rewrite Nat.pow_succ_r'.
  assert (2 ^ Z.to_nat (14 - l) <> 0)%nat by (apply Nat.pow_nonzero; lia).
  lia.
Qed.

Lemma subtree_bound_step (l : Z) :
  l < 14 -> subtree_bound l = S (2 * subtree_bound (l + 1)).
Proof.
  intros Hl. unfold subtree_bound.
  replace (Z.to_nat (14 - l)) with (S (Z.to_nat (14 - (l + 1)))) by lia.
  rewrite (Nat.pow_succ_r' 2 (S _)).
  pose proof (subtree_bound_pos (l + 1)) as Hpos. unfold subtree_bound in Hpos.
  lia.
Qed.

Lemma frontier_bound_app (q1 q2 : list MaporaStack.t) :
  frontier_bound (q1 ++ q2) = (frontier_bound q1 + frontier_bound q2)%nat.
Proof.
  unfold frontier_bound. now rewrite map_app, list_sum_app.
Qed.

Lemma frontier_bound_cons (c : MaporaStack.t) (q : list MaporaStack.t) :
  frontier_bound (c :: q) =
    (subtree_bound (MaporaStack.layer c) + frontier_bound q)%nat.
Proof. reflexivity. Qed.

Lemma frontier_bound_nil : frontier_bound [] = O.
Proof. reflexivity. Qed.

(** The stacks and the edges that the iteration dequeuing [curr] adds. *)
Lemma tree_body_inv curr rest G :
  (14 <= MaporaStack.layer curr /\ tree_body curr rest G = mkTree rest G)
  \/ (MaporaStack.layer curr < 14
      /\ exists nxt,
           get_next_state curr = Some nxt
           /\ tree_body curr rest G =
                mkTree (rest ++ [nxt])
                  (G ++ [mkEdge (MaporaStack.id curr) (MaporaStack.id nxt)
                           "#2ecc71" 2]))
  \/ (MaporaStack.layer curr < 14
      /\ get_next_state curr = None
      /\ tree_body curr rest G =
           mkTree (rest ++ split_children curr)
             (G ++ map (fun t => mkEdge (MaporaStack.id curr)
                                   (MaporaStack.id t) "#e74c3c" 1)
                     (split_children curr))).
Proof.
  unfold tree_body.
  destruct (MaporaStack.layer curr >=? 14) eqn:Hcap.
  - left. split; [| reflexivity]. apply Z.geb_le in Hcap. lia.
  - right. assert (MaporaStack.layer curr < 14)
      by (rewrite Z.geb_leb in Hcap; apply Z.leb_gt in Hcap; lia).
    destruct (get_next_state curr) as [nxt |] eqn:Hnext.
    + left. split; [assumption |]. exists nxt. now split.
    + right. split; [assumption |]. split; reflexivity.
Qed.

Lemma tree_step_decreases st st' :
  tree_step st = Some st' ->
  (frontier_bound (tree_queue st') < frontier_bound (tree_queue st))%nat.
Proof.
  unfold tree_step. destruct (tree_queue st) as [| curr rest]; [discriminate |].
  intros Hstep. some_eq Hstep. subst st'. rewrite frontier_bound_cons.
  destruct (tree_body_inv curr rest (tree_edges st))
    as [[Hcap ->] | [(Hcap & nxt & Hnext & ->) | (Hcap & _ & ->)]];
    cbn [tree_queue]; unfold split_children;
    rewrite ?frontier_bound_app, ?frontier_bound_cons, ?frontier_bound_nil.
  - pose proof (subtree_bound_pos (MaporaStack.layer curr)). lia.
  - rewrite (get_next_state_layer curr nxt Hnext).
    rewrite (subtree_bound_step _ Hcap). lia.
  - cbn [MaporaStack.layer]. rewrite (subtree_bound_step _ Hcap). lia.
Qed.

(** With fuel for the whole frontier the loop leaves, and it leaves because
    the deque is empty. *)
Lemma tree_loop_exits :
  forall fuel st,
    (frontier_bound (tree_queue st) <= fuel)%nat ->
    exists fin, tree_loop fuel st = Some fin /\ tree_queue fin = [].
Proof.
  induction fuel as [| fuel IH]; intros st Hfuel; cbn [tree_loop];
    destruct (tree_step st) as [st' |] eqn:Hstep.
  - apply tree_step_decreases in Hstep. lia.
  - exists st. split; [reflexivity |].
    unfold tree_step in Hstep. now destruct (tree_queue st).
  - apply IH. apply tree_step_decreases in Hstep. lia.
  - exists st. split; [reflexivity |].
    unfold tree_step in Hstep. now destruct (tree_queue st).
Qed.

(** A property of the state that every iteration keeps holds on leaving. *)
Lemma tree_loop_invariant (P : tree_state -> Prop) :
  (forall st st', P st -> tree_step st = Some st' -> P st') ->
  forall fuel st fin, P st -> tree_loop fuel st = Some fin -> P fin.
Proof.
  intros Hkeep. induction fuel as [| fuel IH]; intros st fin HP;
    cbn [tree_loop]; destruct (tree_step st) as [st' |] eqn:Hstep;
    try discriminate; try (intros [= <-]; exact HP).
  apply IH. now apply Hkeep with st.
Qed.

(** X13: the loop of [generate_tree_image] has no budget, yet it ends for every
    residue and modulus: the cap at layer 14 bounds it by the 32767 nodes
    of a full binary tree, and it leaves with an empty deque. *)
Theorem generate_tree_terminates (residue mod_ : Z) :
  Z.of_nat (subtree_bound 0) = 32767
  /\ exists fin,
       generate_tree_graph residue mod_ = Some fin
       /\ tree_queue fin = [].
Proof.
  split; [vm_compute; reflexivity |].
  apply tree_loop_exits. unfold tree_initial. cbn [tree_queue].
  rewrite frontier_bound_cons, frontier_bound_nil.
  cbn [MaporaStack.layer]. lia.
Qed.

(** What the loop keeps true of the deque and of the edges. *)
Lemma tree_step_keeps_shape st st' :
  Forall (fun c => 0 <= MaporaStack.layer c <= 14
                   /\ Z.of_nat (String.length (MaporaStack.id c)) =
                        1 + MaporaStack.layer c) (tree_queue st)
  /\ Forall (fun e => (merge_edge e \/ split_edge e)
                      /\ (2 <= String.length (dst e) <= 15)%nat)
       (tree_edges st) ->
  tree_step st = Some st' ->
  Forall (fun c => 0 <= MaporaStack.layer c <= 14
                   /\ Z.of_nat (String.length (MaporaStack.id c)) =
                        1 + MaporaStack.layer c) (tree_queue st')
  /\ Forall (fun e => (merge_edge e \/ split_edge e)
                      /\ (2 <= String.length (dst e) <= 15)%nat)
       (tree_edges st').
Proof.
  intros [Hq He]. unfold tree_step.
  destruct (tree_queue st) as [| curr rest]; [discriminate |].
  intros Hstep. some_eq Hstep. subst st'.
  inversion Hq as [| ? ? [Hlayer Hlabel] Hrest]; subst.
  destruct (tree_body_inv curr rest (tree_edges st))
    as [[Hcap ->] | [(Hcap & nxt & Hnext & ->) | (Hcap & Hamb & ->)]];
    cbn [tree_queue tree_edges].
  - now split.
  - pose proof (get_next_state_layer curr nxt Hnext) as Hl.
    assert (Hid : MaporaStack.id nxt = (MaporaStack.id curr ++ "D")%string
                  \/ MaporaStack.id nxt = (MaporaStack.id curr ++ "M")%string).
    { unfold get_next_state in Hnext.
      destruct (MaporaStack.r curr mod 2 =? 0);
        [destruct (MaporaStack.m curr mod 2 =? 0); [| discriminate] |];
        some_eq Hnext; subst nxt; [left | right]; reflexivity. }
    assert (Hlen : String.length (MaporaStack.id nxt) =
                   S (String.length (MaporaStack.id curr)))
      by (destruct Hid as [-> | ->]; rewrite string_length_append; simpl; lia).
    split; apply Forall_app; (split; [assumption |]);
      (apply Forall_cons; [| apply Forall_nil]).
    + split; lia.
    + cbn [dst]. split; [| lia]. left. repeat split. exact Hid.
  - unfold split_children. cbn [map].
    assert (Hlen : forall letter : string,
              String.length letter = 1%nat ->
              String.length (MaporaStack.id curr ++ letter) =
                S (String.length (MaporaStack.id curr)))
      by (intros letter Hone; rewrite string_length_append, Hone; lia).
    split; apply Forall_app; (split; [assumption |]);
      repeat (apply Forall_cons; [| try apply Forall_nil]);
      cbn [src dst color weight MaporaStack.id MaporaStack.layer].
    + rewrite Hlen by reflexivity. split; lia.
    + rewrite Hlen by reflexivity. split; lia.
    + rewrite Hlen by reflexivity. split; [| lia].
      right. repeat split. now left.
    + rewrite Hlen by reflexivity. split; [| lia].
      right. repeat split. now right.
Qed.

(** X14: every edge drawn joins a label to that label extended by one letter:
    green edges of weight 2 for D and M (merges), red edges of weight 1 for
    A and B (splits); no label is longer than 15 characters, so no node
    lies below layer 14. *)
Theorem generate_tree_edges_well_formed (residue mod_ : Z) :
  exists fin,
    generate_tree_graph residue mod_ = Some fin
    /\ Forall (fun e => (merge_edge e \/ split_edge e)
                        /\ (2 <= String.length (dst e) <= 15)%nat)
         (tree_edges fin).
Proof.
  destruct (tree_loop_exits (subtree_bound 0) (tree_initial residue mod_))
    as (fin & Hloop & _).
  { unfold tree_initial. cbn [tree_queue].
    rewrite frontier_bound_cons, frontier_bound_nil.
    cbn [MaporaStack.layer]. lia. }
  exists fin. split; [exact Hloop |].
  apply (tree_loop_invariant _ tree_step_keeps_shape _ _ _) in Hloop;
    [apply Hloop |].
  split; repeat constructor; simpl; lia.
Qed.

(** ** The Fibonacci driver *)

Lemma bit_length_spec (n : Z) :
  1 <= n ->
  1 <= bit_length n
  /\ 2 ^ bit_length n = 2 * 2 ^ (bit_length n - 1)
  /\ 2 ^ (bit_length n - 1) <= n < 2 ^ bit_length n.
Proof.
  intros Hn. unfold bit_length.
  destruct (Z.eqb_spec n 0) as [| _]; [lia |].
  rewrite Z.abs_eq by lia.
  pose proof (Z.log2_nonneg n) as Hlog.
  pose proof (Z.log2_spec n ltac:(lia)) as Hspec.
  replace (Z.log2 n + 1 - 1) with (Z.log2 n) by lia.
  fold (Z.succ (Z.log2 n)). rewrite Z.pow_succ_r in * by lia.
  split; [lia |]. split; [reflexivity | exact Hspec].
Qed.

(** What holds of a row whose two inputs are positive and whose draw is in
    the range asked for. *)
Lemma fib_iteration_in_domain (randint : Z -> Z -> Z) (i a b : Z) :
  1 <= a ->
  1 <= b ->
  (forall lo hi, lo <= hi -> lo <= randint lo hi <= hi) ->
  let row := fib_iteration randint i a b in
  fib_val row = a + b
  /\ 4 <= net_size row
  /\ Z.even (net_size row) = true
  /\ net_size row / 2 <= fib_val row < net_size row
  /\ Z.odd (rand_val row) = true
  /\ net_size row / 2 <= rand_val row < net_size row.
Proof.
  intros Ha Hb Hdraw. unfold fib_iteration.
  cbn [fib_val net_size rand_val].
  destruct (bit_length_spec (a + b) ltac:(lia)) as (Hlen & Hpow & Hlo & Hhi).
  set (size := 2 ^ bit_length (a + b)) in *.
  set (half := 2 ^ (bit_length (a + b) - 1)) in *.
  assert (Hhalf : size / 2 = half)
    by (rewrite Hpow, (Z.mul_comm 2 half); apply Z.div_mul; lia).
  assert (Heven : Z.even size = true)
    by (rewrite Hpow, Z.even_mul; reflexivity).
  assert (Hhalf2 : 2 <= half).
  { destruct (Z.eq_dec (bit_length (a + b)) 1) as [H1 | H1].
    - unfold half in Hlo. unfold size in Hhi. rewrite H1 in Hlo, Hhi.
      simpl in Hlo, Hhi. lia.
    - unfold half.
      replace (bit_length (a + b) - 1)
        with (Z.succ (bit_length (a + b) - 2)) by lia.
      rewrite Z.pow_succ_r by lia.
      assert (0 < 2 ^ (bit_length (a + b) - 2))
        by (apply Z.pow_pos_nonneg; lia).
      lia. }
  rewrite Hhalf.
  specialize (Hdraw half (size - 1) ltac:(lia)).
  set (draw := randint half (size - 1)) in *.
  repeat split; try lia; try assumption.
  - rewrite mod2_even. destruct (Z.even draw) eqn:Hd.
    + now rewrite Z.odd_add, <- Z.negb_even, Hd.
    + now rewrite <- Z.negb_even, Hd.
  - destruct (draw mod 2 =? 0); lia.
  - rewrite mod2_even. destruct (Z.even draw) eqn:Hd; [| lia].
    assert (draw <> size - 1); [| lia].
    intros Heq. rewrite Heq, Z.even_sub, Heven in Hd. discriminate.
Qed.

Lemma fib_loop_in_domain (randint : Z -> Z -> Z -> Z) :
  (forall i lo hi, lo <= hi -> lo <= randint i lo hi <= hi) ->
  forall indices a b,
    1 <= a ->
    1 <= b ->
    Forall (fun row =>
              4 <= net_size row
              /\ Z.even (net_size row) = true
              /\ net_size row / 2 <= fib_val row < net_size row
              /\ Z.odd (rand_val row) = true
              /\ net_size row / 2 <= rand_val row < net_size row)
           (fib_loop randint indices a b).
Proof.
  intros Hdraw. induction indices as [| i indices IH]; intros a b Ha Hb;
    cbn [fib_loop]; [constructor |].
  destruct (fib_iteration_in_domain (randint i) i a b Ha Hb (Hdraw i))
    as (Hval & Hrow).
  constructor; [exact Hrow |]. apply IH; lia.
Qed.

Lemma fib_loop_ratios (randint : Z -> Z -> Z -> Z) :
  forall indices a b,
    Forall (fun row =>
              fib_ratio row =
                get_stability_ratio (net_size row) (fib_val row) 400
              /\ rnd_ratio row =
                   get_stability_ratio (net_size row) (rand_val row) 400)
           (fib_loop randint indices a b).
Proof.
  induction indices as [| i indices IH]; intros a b; cbn [fib_loop];
    constructor; [split; reflexivity | apply IH].
Qed.

(** X16: every pair of calls that the Fibonacci driver makes stays inside the
    domain of [get_stability_ratio]: the modulus is an even number >= 4,
    the Fibonacci residue and the control residue both lie in the upper
    half [modulus/2, modulus) of it, and the control residue is odd; the
    two ratios of a row are those of these arguments with budget 400. *)
Theorem fibonacci_test_calls_in_domain (randint : Z -> Z -> Z -> Z) :
  (forall i lo hi, lo <= hi -> lo <= randint i lo hi <= hi) ->
  Forall (fun row =>
            (4 <= net_size row
             /\ Z.even (net_size row) = true
             /\ net_size row / 2 <= fib_val row < net_size row
             /\ Z.odd (rand_val row) = true
             /\ net_size row / 2 <= rand_val row < net_size row)
            /\ fib_ratio row =
                 get_stability_ratio (net_size row) (fib_val row) 400
            /\ rnd_ratio row =
                 get_stability_ratio (net_size row) (rand_val row) 400)
         (run_fibonacci_stress_test randint).
Proof.
  intros Hdraw. unfold run_fibonacci_stress_test.
  apply Forall_and.
  - apply fib_loop_in_domain; [exact Hdraw | lia | lia].
  - apply fib_loop_ratios.
Qed.

Lemma fibonacci_test_calls_in_domain_witness :
  Forall (fun row =>
            (4 <= net_size row
             /\ Z.even (net_size row) = true
             /\ net_size row / 2 <= fib_val row < net_size row
             /\ Z.odd (rand_val row) = true
             /\ net_size row / 2 <= rand_val row < net_size row)
            /\ fib_ratio row =
                 get_stability_ratio (net_size row) (fib_val row) 400
            /\ rnd_ratio row =
                 get_stability_ratio (net_size row) (rand_val row) 400)
         (run_fibonacci_stress_test (fun _ lo _ => lo)).
Proof.
  apply (fibonacci_test_calls_in_domain (fun _ lo _ => lo)).
  intros i lo hi Hle. lia.
Defined.

(** X17: the first columns of the table do not depend on the draws: the rows
    are numbered 3 to 25 and row [i] holds the Fibonacci number F_i, from
    F_3 = 2 to F_25 = 75025, with the next power of two as network size. *)
Theorem fibonacci_test_rows (randint : Z -> Z -> Z -> Z) :
  map (fun row => (fib_index row, fib_val row, net_size row))
      (run_fibonacci_stress_test randint) =
    [ (3, 2, 4); (4, 3, 4); (5, 5, 8); (6, 8, 16); (7, 13, 16);
      (8, 21, 32); (9, 34, 64); (10, 55, 64); (11, 89, 128);
      (12, 144, 256); (13, 233, 256); (14, 377, 512); (15, 610, 1024);
      (16, 987, 1024); (17, 1597, 2048); (18, 2584, 4096);
      (19, 4181, 8192); (20, 6765, 8192); (21, 10946, 16384);
      (22, 17711, 32768); (23, 28657, 32768); (24, 46368, 65536);
      (25, 75025, 131072) ].
Proof.
  reflexivity.
Qed.

(** ** The horizon scan *)

Lemma testbit_above (n b i : Z) :
  0 <= b < 2 ^ n -> n <= i -> Z.testbit b i = false.
Proof.
  intros Hb Hi. destruct (Z.eq_dec b 0) as [-> | Hnz]; [apply Z.bits_0 |].
  apply Z.bits_above_log2; [lia |].
  assert (Z.log2 b < n); [| lia].
  apply Z.log2_lt_pow2; lia.
Qed.

(** Xor with the all-ones mask of [n] bits complements an [n]-bit number. *)
Lemma lxor_ones_complement (n b : Z) :
  0 <= n ->
  0 <= b < 2 ^ n ->
  Z.lxor (2 ^ n - 1) b = 2 ^ n - 1 - b.
Proof.
  intros Hn Hb.
  replace (2 ^ n - 1) with (Z.ones n) by (rewrite Z.ones_equiv; lia).
  rewrite Z.sub_nocarry_ldiff.
  - apply Z.bits_inj'. intros i Hi.
    rewrite Z.lxor_spec, Z.ldiff_spec.
    destruct (Z.lt_ge_cases i n) as [Hlow | Hhigh].
    + rewrite Z.ones_spec_low by lia. now destruct (Z.testbit b i).
    + rewrite Z.ones_spec_high by lia.
      now rewrite (testbit_above n b i Hb Hhigh).
  - apply Z.bits_inj'. intros i Hi.
    rewrite Z.ldiff_spec, Z.bits_0.
    destruct (Z.lt_ge_cases i n) as [Hlow | Hhigh].
    + rewrite Z.ones_spec_low by lia. apply andb_false_r.
    + now rewrite (testbit_above n b i Hb Hhigh).
Qed.

Lemma horizon_iteration_spec (getrandbits : Z -> Z) (bits : Z) :
  1 <= bits ->
  0 <= getrandbits bits < 2 ^ bits ->
  let row := horizon_iteration getrandbits bits in
  let complement := 2 ^ bits - 1 - getrandbits bits in
  horizon_modulus row = 2 ^ bits
  /\ horizon_residue row =
       (if Z.even complement then complement + 1 else complement)
  /\ Z.odd (horizon_residue row) = true
  /\ 1 <= horizon_residue row < horizon_modulus row
  /\ horizon_ratio row =
       get_stability_ratio (horizon_modulus row) (horizon_residue row) 3000.
Proof.
  intros Hbits Hdraw. unfold horizon_iteration.
  cbn [horizon_modulus horizon_residue horizon_ratio].
  rewrite Z.shiftl_1_l, lxor_ones_complement by lia.
  set (complement := 2 ^ bits - 1 - getrandbits bits).
  assert (Heven : Z.even (2 ^ bits) = true).
  { replace bits with (Z.succ (bits - 1)) by lia.
    rewrite Z.pow_succ_r by lia. now rewrite Z.even_mul. }
  rewrite mod2_even.
  split; [reflexivity |]. split; [reflexivity |].
  destruct (Z.even complement) eqn:Hc.
  - split; [now rewrite Z.odd_add, <- Z.negb_even, Hc |].
    split; [| reflexivity].
    assert (complement <> 2 ^ bits - 1); [| lia].
    intros Heq. rewrite Heq, Z.even_sub, Heven in Hc. discriminate.
  - split; [now rewrite <- Z.negb_even, Hc |].
    split; [| reflexivity].
    assert (complement <> 0); [| lia].
    intros Heq. rewrite Heq in Hc. discriminate.
Qed.

(** X18: in every row of the horizon scan the modulus is 2^bits and the residue
    is the bitwise complement of the random draw within [bits] bits, plus
    one when that is even: an odd number with 1 <= residue < modulus, which
    is what [get_stability_ratio] is called on with budget 3000. *)
Theorem horizon_scan_calls_in_domain (getrandbits : Z -> Z) :
  (forall k, 0 <= k -> 0 <= getrandbits k < 2 ^ k) ->
  Forall (fun row =>
            let complement :=
              2 ^ horizon_bits row - 1 - getrandbits (horizon_bits row) in
            horizon_modulus row = 2 ^ horizon_bits row
            /\ horizon_residue row =
                 (if Z.even complement then complement + 1 else complement)
            /\ Z.odd (horizon_residue row) = true
            /\ 1 <= horizon_residue row < horizon_modulus row
            /\ horizon_ratio row =
                 get_stability_ratio (horizon_modulus row)
                   (horizon_residue row) 3000)
         (run_horizon_scan getrandbits)
  /\ map horizon_bits (run_horizon_scan getrandbits) = scales.
Proof.
  intros Hdraw. split; [| reflexivity].
  unfold run_horizon_scan, scales.
  repeat (apply Forall_cons || apply Forall_nil);
    cbn [map];
    match goal with
    | |- context [horizon_iteration getrandbits ?bits] =>
        apply (horizon_iteration_spec getrandbits bits);
          [lia | apply Hdraw; lia]
    | _ => idtac
    end.
Qed.

Lemma horizon_scan_calls_in_domain_witness :
  map horizon_bits (run_horizon_scan (fun _ => 0)) = scales.
Proof.
  apply (horizon_scan_calls_in_domain (fun _ => 0)).
  intros k Hk. split; [lia | apply Z.pow_pos_nonneg; lia].
Defined.

(** ** Node labels of the tree image are unique *)

Lemma string_append_inj (s1 s2 x y : string) :
  String.length s1 = String.length s2 ->
  (s1 ++ x)%string = (s2 ++ y)%string ->
  s1 = s2 /\ x = y.
Proof.
  revert s2. induction s1 as [| c s1 IH]; intros [| c2 s2]; simpl;
    try discriminate.
  - now split.
  - intros Hlen Heq. injection Heq as -> Htail.
    destruct (IH s2 ltac:(lia) Htail) as [-> ->]. now split.
Qed.

Lemma label_length_in (n : nat) (q : list MaporaStack.t) (a : string) :
  Forall (fun c => String.length (MaporaStack.id c) = n) q ->
  In a (map MaporaStack.id q) ->
  String.length a = n.
Proof.
  intros Hall Hin. apply in_map_iff in Hin. destruct Hin as (c & <- & Hc).
  rewrite Forall_forall in Hall. now apply Hall.
Qed.

Lemma get_next_state_label curr nxt :
  get_next_state curr = Some nxt ->
  MaporaStack.id nxt = (MaporaStack.id curr ++ "D")%string
  \/ MaporaStack.id nxt = (MaporaStack.id curr ++ "M")%string.
Proof.
  unfold get_next_state. intros Hnext.
  destruct (MaporaStack.r curr mod 2 =? 0);
    [destruct (MaporaStack.m curr mod 2 =? 0); [| discriminate] |];
    some_eq Hnext; subst nxt; [left | right]; reflexivity.
Qed.

Section LabelsExtend.

Variables (st : tree_state) (curr : MaporaStack.t)
          (rest kids : list MaporaStack.t) (new_edges : list edge).

Hypothesis Hqueue : tree_queue st = curr :: rest.
Hypothesis Hkids : Forall (extends_label curr) kids.
Hypothesis Hdistinct : NoDup (map MaporaStack.id kids).
Hypothesis Hedges : map dst new_edges = map MaporaStack.id kids.

Lemma kid_label_length a :
  In a (map MaporaStack.id kids) ->
  String.length a = S (String.length (MaporaStack.id curr)).
Proof.
  intros Hin. apply in_map_iff in Hin. destruct Hin as (k & <- & Hk).
  rewrite Forall_forall in Hkids. destruct (Hkids k Hk) as (x & Hone & ->).
  rewrite string_length_append, Hone. lia.
Qed.

(** A new label does not extend the label of another stack of the length
    of [curr] that is not [curr] itself. *)
Lemma kid_label_parent a f x :
  In a (map MaporaStack.id kids) ->
  String.length (MaporaStack.id f) = String.length (MaporaStack.id curr) ->
  a = (MaporaStack.id f ++ x)%string ->
  MaporaStack.id f = MaporaStack.id curr.
Proof.
  intros Hin Hlen Heq. apply in_map_iff in Hin.
  destruct Hin as (k & <- & Hk).
  rewrite Forall_forall in Hkids. destruct (Hkids k Hk) as (y & _ & Hid).
  rewrite Hid in Heq. symmetry in Heq.
  now destruct (string_append_inj _ _ _ _ Hlen Heq).
Qed.

Lemma tree_labels_extend :
  tree_labels_inv st ->
  tree_labels_inv (mkTree (rest ++ kids) (tree_edges st ++ new_edges)).
Proof.
  intros (n & front & back & Hq & Hfront & Hback & Hnodup & Hpre & Hdst & Hlen).
  rewrite Hqueue in Hq, Hnodup. cbn [map] in Hnodup.
  apply NoDup_cons_iff in Hnodup. destruct Hnodup as [Hfresh Hnodup].
  destruct front as [| f0 front]; cbn [app] in Hq.
  - (* the first block is used up: the second becomes the first *)
    subst back. inversion Hback as [| ? ? Hcurr Hrest]; subst.
    exists (S n), rest, kids. cbn [tree_queue tree_edges].
    split; [reflexivity |]. split; [exact Hrest |].
    split.
    { apply Forall_forall. intros k Hk.
      rewrite <- Hcurr. apply kid_label_length. now apply in_map. }
    split.
    { rewrite map_app. apply NoDup_app; [assumption | assumption |].
      intros a Ha Hak. apply (label_length_in _ _ _ Hrest) in Ha.
      apply kid_label_length in Hak. lia. }
    split.
    { intros b f x Hb Hf Heq. apply Hfresh.
      rewrite <- (kid_label_parent (MaporaStack.id b) f x).
      - now apply in_map.
      - now apply in_map.
      - rewrite Hcurr. rewrite Forall_forall in Hrest. now apply Hrest.
      - exact Heq. }
    split.
    { rewrite map_app, Hedges. apply NoDup_app; [assumption | assumption |].
      intros a Ha Hak. apply in_map_iff in Ha. destruct Ha as (e & <- & He).
      apply kid_label_length in Hak. destruct (Hlen e He) as [Hle _]. lia. }
    intros e He. apply in_app_or in He. destruct He as [He | He].
    + destruct (Hlen e He) as [Hle _]. split; [lia | intros; lia].
    + assert (Hin : In (dst e) (map MaporaStack.id kids))
        by (rewrite <- Hedges; now apply in_map).
      pose proof (kid_label_length _ Hin). split; [lia | now intros].
  - (* [curr] is the head of the first block *)
    injection Hq as <- ->. inversion Hfront as [| ? ? Hcurr Hrest]; subst.
    assert (Hnew_back : forall a, In a (map MaporaStack.id kids) ->
                                  ~ In a (map MaporaStack.id back)).
    { intros a Hak Hab. apply in_map_iff in Hab.
      destruct Hab as (b & <- & Hb). apply in_map_iff in Hak.
      destruct Hak as (k & Hid & Hk).
      rewrite Forall_forall in Hkids. destruct (Hkids k Hk) as (x & _ & Hkx).
      apply (Hpre b curr x Hb (in_eq _ _)). congruence. }
    exists (String.length (MaporaStack.id curr)), front, (back ++ kids).
    cbn [tree_queue tree_edges].
    split; [now rewrite app_assoc |]. split; [exact Hrest |].
    split.
    { apply Forall_app. split; [exact Hback |].
      apply Forall_forall. intros k Hk.
      apply kid_label_length. now apply in_map. }
    split.
    { rewrite map_app. apply NoDup_app; [assumption | assumption |].
      intros a Ha Hak. rewrite map_app in Ha. apply in_app_or in Ha.
      destruct Ha as [Ha | Ha].
      - apply (label_length_in _ _ _ Hrest) in Ha.
        apply kid_label_length in Hak. lia.
      - now apply (Hnew_back a). }
    split.
    { intros b f x Hb Hf Heq. apply in_app_or in Hb. destruct Hb as [Hb | Hb].
      - apply (Hpre b f x Hb); [now right | exact Heq].
      - apply Hfresh. rewrite map_app. apply in_or_app. left.
        rewrite <- (kid_label_parent (MaporaStack.id b) f x).
        + now apply in_map.
        + now apply in_map.
        + rewrite Forall_forall in Hrest. now apply Hrest.
        + exact Heq. }
    split.
    { rewrite map_app, Hedges. apply NoDup_app; [assumption | assumption |].
      intros a Ha Hak. apply in_map_iff in Ha. destruct Ha as (e & <- & He).
      destruct (Hlen e He) as [_ Hin].
      apply (Hnew_back _ Hak). apply Hin. now apply kid_label_length. }
    intros e He. apply in_app_or in He. destruct He as [He | He].
    + destruct (Hlen e He) as [Hle Hin]. split; [exact Hle |].
      intros Heq. rewrite map_app. apply in_or_app. left. now apply Hin.
    + assert (Hin : In (dst e) (map MaporaStack.id kids))
        by (rewrite <- Hedges; now apply in_map).
      pose proof (kid_label_length _ Hin). split; [lia |].
      intros _. rewrite map_app. apply in_or_app. now right.
Qed.

End LabelsExtend.

Lemma tree_step_keeps_labels st st' :
  tree_labels_inv st -> tree_step st = Some st' -> tree_labels_inv st'.
Proof.
  intros Hinv. unfold tree_step.
  destruct (tree_queue st) as [| curr rest] eqn:Hq; [discriminate |].
  intros Hstep. some_eq Hstep. subst st'.
  destruct (tree_body_inv curr rest (tree_edges st))
    as [[_ ->] | [(_ & nxt & Hnext & ->) | (_ & _ & ->)]].
  - rewrite <- (app_nil_r rest), <- (app_nil_r (tree_edges st)).
    apply (tree_labels_extend st curr rest [] [] Hq);
      [constructor | constructor | reflexivity | exact Hinv].
  - apply (tree_labels_extend st curr rest [nxt] _ Hq);
      [| repeat constructor; intros [] | reflexivity | exact Hinv].
    constructor; [| constructor].
    destruct (get_next_state_label curr nxt Hnext) as [Hid | Hid];
      eexists; (split; [| exact Hid]); reflexivity.
  - apply (tree_labels_extend st curr rest (split_children curr) _ Hq);
      [| | reflexivity | exact Hinv]; unfold split_children.
    + repeat constructor; eexists; (split; [| reflexivity]); reflexivity.
    + cbn [map MaporaStack.id]. repeat constructor; [| intros []].
      intros [Heq | []].
      destruct (string_append_inj _ _ _ _ eq_refl Heq) as [_ Hletters].
      discriminate.
Qed.

(** X15: no label is the target of two edges and the root label is the target
    of none, so every [add_edge] call creates a new node with its single
    incoming edge: the graph drawn is a tree rooted at ["R"]. *)
Theorem generate_tree_labels_unique (residue mod_ : Z) :
  exists fin,
    generate_tree_graph residue mod_ = Some fin
    /\ NoDup (map dst (tree_edges fin))
    /\ ~ In "R"%string (map dst (tree_edges fin)).
Proof.
  destruct (tree_loop_exits (subtree_bound 0) (tree_initial residue mod_))
    as (fin & Hloop & _).
  { unfold tree_initial. cbn [tree_queue].
    rewrite frontier_bound_cons, frontier_bound_nil.
    cbn [MaporaStack.layer]. lia. }
  exists fin. split; [exact Hloop |]. split.
  - apply (tree_loop_invariant _ tree_step_keeps_labels _ _ _) in Hloop.
    + destruct Hloop as (n & front & back & _ & _ & _ & _ & _ & Hdst & _).
      exact Hdst.
    + exists 1%nat, [MaporaStack.new mod_ residue "R" 0], [].
      unfold tree_initial. cbn [tree_queue tree_edges map].
      split; [reflexivity |]. split; [repeat constructor |].
      split; [constructor |].
      split; [constructor; [intros [] | constructor] |].
      split; [intros b f x [] |].
      split; [constructor | intros e []].
  - apply (tree_loop_invariant _ tree_step_keeps_shape _ _ _) in Hloop.
    + destruct Hloop as [_ Hshape]. intros Hin.
      apply in_map_iff in Hin. destruct Hin as (e & Hroot & He).
      rewrite Forall_forall in Hshape. destruct (Hshape e He) as [_ Hlen].
      rewrite Hroot in Hlen. simpl in Hlen. lia.
    + split; repeat constructor; simpl; lia.
Qed.
